(** * RRT planner (ros2rrt/rrt2D.py): a shallow embedding and its properties

    The planner of [RRT2DNode.run_rrt_2D] grows a tree over the plane.  The
    embedding follows the source statement by statement.  Coordinates are
    exact reals (the source computes with numpy floats; rounding is not
    modelled).  The node list is an arena: a node is identified with its
    index in [node_list], which is sound because [node_list] is append-only
    and every parent reference in the source is taken from [node_list]. *)

From Stdlib Require Import Reals Lra Lia ZArith List Bool String.
From stdpp Require Import base list.

Open Scope R_scope.

(** ** Vectors of the plane (numpy arrays of shape (2,)) *)

Definition Position : Type := R * R.

Definition vadd (a b : Position) : Position := (a.1 + b.1, a.2 + b.2).
Definition vsub (a b : Position) : Position := (a.1 - b.1, a.2 - b.2).
Definition vscale (a : Position) (k : R) : Position := (a.1 * k, a.2 * k).
Definition vdiv (a : Position) (k : R) : Position := (a.1 / k, a.2 / k).

(** [np.linalg.norm] of a 2-vector. *)
Definition norm (a : Position) : R := sqrt (a.1 * a.1 + a.2 * a.2).

(** The Euclidean distance of the plane, as the spec words it. *)
Definition euclid (a b : Position) : R :=
  sqrt ((a.1 - b.1) ^ 2 + (a.2 - b.2) ^ 2).

(** The comparisons [<] and [!=] of the source, as booleans. *)
Definition Rltb (x y : R) : bool := if Rlt_dec x y then true else false.
Definition Rneqb (x y : R) : bool := if Req_dec_T x y then false else true.

(** ** Obstacles (submodules/Obstacles.py, read through their uses) *)

(** Modelled from the spec: the classes [Circle] and [Rectangle] of
    submodules/Obstacles.py.  [Circle x y radius] and
    [Rectangle x y width height orientation] carry the attributes the
    planner reads; the orientation is stored and never consulted. *)
Inductive Obstacle : Type :=
| Circle (x y radius : R)
| Rectangle (x y width height orientation : R).

(** The body of the [for obstacle in self.obstacle_list] loop of
    [run_rrt_2D], for one obstacle and the candidate position [p]. *)
Definition collides (o : Obstacle) (p : Position) : bool :=
  match o with
  | Circle x y radius =>
      let obstacle_vec := vsub p (x, y) in
      let obstacle_distance := norm obstacle_vec in
      Rltb obstacle_distance radius
  | Rectangle x y width height _ =>
      (Rltb (x - width / 2) p.1 && Rltb p.1 (x + width / 2))
      && (Rltb (y - height / 2) p.2 && Rltb p.2 (y + height / 2))
  end.

(** The whole obstacle loop: [collision] is set by the first obstacle
    that contains the candidate, and the loop breaks there. *)
Fixpoint collision (obstacle_list : list Obstacle) (p : Position) : bool :=
  match obstacle_list with
  | [] => false
  | o :: rest => if collides o p then true else collision rest p
  end.

(** ** Tree nodes *)

(** Modelled from the spec: the class [TreeNode] of submodules/TreeNode.py.
    A node holds a position, a reference to its parent (absent for the
    root) and the ordered list of its children; [add_child] appends to that
    list.  References are indices into the node list. *)
Record TreeNode : Type := mkTreeNode {
  val : Position;
  parent : option nat;
  children : list nat
}.

(** [TreeNode(val, parent)]: a fresh node without children. *)
Definition new_TreeNode (v : Position) (p : option nat) : TreeNode :=
  mkTreeNode v p [].

(** [node.add_child(c)] on one node. *)
Definition add_child (c : nat) (n : TreeNode) : TreeNode :=
  mkTreeNode (val n) (parent n) (children n ++ [c]).

(** [p.add_child(new); node_list.append(new)] where [p] is the node at
    index [i] and [new = TreeNode(v, p)]. *)
Definition attach (node_list : list TreeNode) (i : nat) (v : Position)
  : list TreeNode :=
  alter (add_child (length node_list)) i node_list ++ [new_TreeNode v (Some i)].

(** ** Configuration: the attributes set in [__init__] *)

Record RunConfig : Type := mkRunConfig {
  start_position : Position;
  goal_position : Position;
  map_size : Z * Z;
  node_limit : Z;
  goal_tolerance : R;
  step_size : R;
  obstacle_list : list Obstacle
}.

(** ** One scan of the node list *)

(** The state of the inner [for node in node_list] loop.  [min_distance]
    starts as [np.inf], written [None]; [min_node] starts as [None].
    [min_node_vec] is bound by the first node the scan passes (every
    distance is below [np.inf]), so a value left by an earlier iteration
    is never read and the scan starts with it unbound. *)
Record ScanState : Type := mkScanState {
  min_distance : option R;
  min_node : option nat;
  min_node_vec : option Position
}.

Definition scan_init : ScanState := mkScanState None None None.

(** [distance < min_distance], with [np.inf] above every real. *)
Definition below (distance : R) (m : option R) : bool :=
  match m with
  | None => true
  | Some d => Rltb distance d
  end.

(** [np.min([distance, min_distance])]. *)
Definition np_min (distance : R) (m : option R) : R :=
  match m with
  | None => distance
  | Some d => Rmin distance d
  end.

Inductive ScanResult : Type :=
| GoalReached (i : nat)        (* [break] at the node of index [i] *)
| ScanDone (s : ScanState).    (* the loop ran to its end *)

Section Planner.

Variable cfg : RunConfig.

(** The rest of the loop body once the goal check has failed: the state
    after the node [node] of index [i] was compared with the sample. *)
Definition pass (random_position : Position) (i : nat) (node : TreeNode)
  (s : ScanState) : ScanState :=
  let new_node_vec := vsub random_position (val node) in
  let distance := norm new_node_vec in
  let closer := below distance (min_distance s) in
  mkScanState (Some (np_min distance (min_distance s)))
    (if closer then Some i else min_node s)
    (if closer then Some new_node_vec else min_node_vec s).

(** The inner loop over the nodes [l], the first of which has index [i]. *)
Fixpoint scan (random_position : Position) (l : list TreeNode) (i : nat)
  (s : ScanState) : ScanResult :=
  match l with
  | [] => ScanDone s
  | node :: rest =>
      let goal_vec := vsub (goal_position cfg) (val node) in
      let goal_distance := norm goal_vec in
      if Rltb goal_distance (goal_tolerance cfg) then GoalReached i
      else scan random_position rest (S i) (pass random_position i node s)
  end.

(** ** One iteration of the [while] loop *)

(** What an iteration did to the tree. *)
Inductive Outcome : Type :=
| Completed    (* goal attached, [completed = True], both loops left *)
| Extended     (* the candidate was committed *)
| Collided     (* [continue]: the candidate was discarded *)
| Stalled.     (* [min_distance == 0]: no candidate was formed *)

(** [new_node_val = min_node.val + new_node_unit_vec * self.step_size]. *)
Definition steer (from vec : Position) (dist : R) : Position :=
  let new_node_unit_vec := vdiv vec dist in
  vadd from (vscale new_node_unit_vec (step_size cfg)).

(** The body of the [while] loop: the node list goes in and comes out.
    [None] stands for a Python exception ([None.val], an unbound name). *)
Definition iteration (sample : Z * Z) (node_list : list TreeNode)
  : option (Outcome * list TreeNode) :=
  let random_position : Position := (IZR sample.1, IZR sample.2) in
  match scan random_position node_list 0 scan_init with
  | GoalReached i => Some (Completed, attach node_list i (goal_position cfg))
  | ScanDone s =>
      match min_distance s with
      | None => None
      | Some d =>
          if Rneqb d 0 then
            match min_node s, min_node_vec s with
            | Some m, Some vec =>
                match node_list !! m with
                | Some mn =>
                    let new_node_val := steer (val mn) vec d in
                    if collision (obstacle_list cfg) new_node_val
                    then Some (Collided, node_list)
                    else Some (Extended, attach node_list m new_node_val)
                | None => None
                end
            | _, _ => None
            end
          else Some (Stalled, node_list)
      end
  end.

(** ** The [while len(node_list) < self.node_limit] loop *)

(** The loop draws one sample per iteration.  [Pending] is the state of a
    run that has used every sample it was given and would draw another:
    the loop has not been left yet. *)
Inductive Run : Type :=
| Finished (completed : bool) (node_list : list TreeNode)
| Pending (node_list : list TreeNode)
| Crashed.

Fixpoint rrt_loop (samples : list (Z * Z)) (node_list : list TreeNode) : Run :=
  if (Z.of_nat (length node_list) <? node_limit cfg)%Z then
    match samples with
    | [] => Pending node_list
    | sample :: rest =>
        match iteration sample node_list with
        | Some (Completed, nl) => Finished true nl
        | Some (_, nl) => rrt_loop rest nl
        | None => Crashed
        end
    end
  else Finished false node_list.

(** [start_node = TreeNode(self.start_position, None)]. *)
Definition start_node : TreeNode := new_TreeNode (start_position cfg) None.

Definition run_rrt_2D (samples : list (Z * Z)) : Run :=
  rrt_loop samples [start_node].

(** The number of iterations of a run that left the tree as it was. *)
Fixpoint idle (samples : list (Z * Z)) (node_list : list TreeNode) : nat :=
  if (Z.of_nat (length node_list) <? node_limit cfg)%Z then
    match samples with
    | [] => 0
    | sample :: rest =>
        match iteration sample node_list with
        | Some (Extended, nl) => idle rest nl
        | Some (Collided, nl) | Some (Stalled, nl) => S (idle rest nl)
        | _ => 0
        end
    end
  else 0.

(** [np.random.randint(-map_size, map_size)] draws from the half-open
    interval; a sample the generator can produce lies in it. *)
Definition in_map (sample : Z * Z) : Prop :=
  (- (map_size cfg).1 <= sample.1 < (map_size cfg).1)%Z /\
  (- (map_size cfg).2 <= sample.2 < (map_size cfg).2)%Z.

End Planner.

(** ** Path extraction: the [while current_node.parent] loop of [publish_path] *)

(** The walk from the node of index [current]: each node that has a parent
    contributes a pose at its position, then the walk moves to the parent.
    The walk ends at the first node without a parent, which contributes
    nothing.  The result pairs every pose with the node it came from.
    [None]: the fuel ran out or a reference dangles. *)
Fixpoint walk (fuel : nat) (node_list : list TreeNode) (current : nat)
  : option (list (nat * Position)) :=
  match fuel with
  | O => None
  | S fuel' =>
      match node_list !! current with
      | None => None
      | Some current_node =>
          match parent current_node with
          | None => Some []
          | Some p =>
              match walk fuel' node_list p with
              | Some poses => Some ((current, val current_node) :: poses)
              | None => None
              end
          end
      end
  end.

(** [current_node = node_list[-1]] and the loop; an empty list raises. *)
Definition path_nodes (node_list : list TreeNode) : option (list (nat * Position)) :=
  match node_list with
  | [] => None
  | _ => walk (length node_list) node_list (length node_list - 1)
  end.

Definition publish_path (node_list : list TreeNode) : option (list Position) :=
  match path_nodes node_list with
  | Some poses => Some (map snd poses)
  | None => None
  end.

(** ** The shape of the tree *)

(** The parent reference of the node of index [i]. *)
Definition parent_of (node_list : list TreeNode) (i : nat) : option nat :=
  match node_list !! i with
  | Some n => parent n
  | None => None
  end.

(** The indices of the nodes whose parent is the node of index [i], in
    list order. *)
Definition kids (node_list : list TreeNode) (i : nat) : list nat :=
  filter (fun j => parent_of node_list j = Some i) (seq 0 (length node_list)).

(** The node reached from [i] by following [k] parent references. *)
Fixpoint ancestor (node_list : list TreeNode) (k i : nat) : option nat :=
  match k with
  | O => Some i
  | S k' =>
      match parent_of node_list i with
      | Some p => ancestor node_list k' p
      | None => None
      end
  end.

(** A tree rooted at [start], laid out in insertion order: the first node
    is the root, at [start] and without a parent; every later node has a
    parent that stands before it; and the children recorded in a node are
    the nodes that name it as their parent. *)
Record well_formed (start : Position) (node_list : list TreeNode) : Prop := {
  wf_root : exists root, node_list !! 0%nat = Some root /\
                         parent root = None /\ val root = start;
  wf_parent : forall i n, node_list !! i = Some n -> (0 < i)%nat ->
                          exists p, parent n = Some p /\ (p < i)%nat;
  wf_children : forall i n, node_list !! i = Some n ->
                            children n = kids node_list i
}.

(** The node list a run holds, when it did not raise. *)
Definition nodes_of (r : Run) : option (list TreeNode) :=
  match r with
  | Finished _ nl => Some nl
  | Pending nl => Some nl
  | Crashed => None
  end.

(** ** What one iteration does, as a relation *)

(** The sample of an iteration as a point of the plane. *)
Definition sample_position (sample : Z * Z) : Position :=
  (IZR sample.1, IZR sample.2).

(** The candidate steered from the node [mn] towards the sample. *)
Definition candidate (cfg : RunConfig) (sample : Z * Z) (mn : TreeNode) : Position :=
  let vec := vsub (sample_position sample) (val mn) in
  steer cfg (val mn) vec (norm vec).

(** The node [n] is within the goal tolerance. *)
Definition near_goal (cfg : RunConfig) (n : TreeNode) : Prop :=
  norm (vsub (goal_position cfg) (val n)) < goal_tolerance cfg.

(** The scan tracks the node of index [m]: the displacement and the
    distance it holds are those of that node. *)
Definition tracks (node_list : list TreeNode) (random_position : Position)
  (s : ScanState) (m : nat) (mn : TreeNode) : Prop :=
  node_list !! m = Some mn /\
  min_node s = Some m /\
  min_node_vec s = Some (vsub random_position (val mn)) /\
  min_distance s = Some (norm (vsub random_position (val mn))).

(** No node of the list is within the goal tolerance. *)
Definition all_far (cfg : RunConfig) (node_list : list TreeNode) : Prop :=
  forall j n, node_list !! j = Some n -> ~ near_goal cfg n.

(** The distance from a node to the random position. *)
Definition sample_distance (random_position : Position) (n : TreeNode) : R :=
  norm (vsub random_position (val n)).

(** Among the first [k] nodes, the node [mn] of index [m] is nearest to
    the random position, and is the first one at that distance. *)
Definition nearest_below (node_list : list TreeNode) (random_position : Position)
  (k m : nat) (mn : TreeNode) : Prop :=
  (m < k)%nat /\ node_list !! m = Some mn /\
  (forall j n, (j < k)%nat -> node_list !! j = Some n ->
     sample_distance random_position mn <= sample_distance random_position n) /\
  (forall j n, (j < m)%nat -> node_list !! j = Some n ->
     sample_distance random_position mn < sample_distance random_position n).

Definition first_nearest (node_list : list TreeNode) (sample : Z * Z)
  (m : nat) (mn : TreeNode) : Prop :=
  nearest_below node_list (sample_position sample) (length node_list) m mn.

Inductive step (cfg : RunConfig) (sample : Z * Z) (nl : list TreeNode)
  : Outcome -> list TreeNode -> Prop :=
| step_completed i n :
    nl !! i = Some n -> near_goal cfg n ->
    (forall j m, (j < i)%nat -> nl !! j = Some m -> ~ near_goal cfg m) ->
    step cfg sample nl Completed (attach nl i (goal_position cfg))
| step_extended m mn :
    all_far cfg nl -> first_nearest nl sample m mn ->
    sample_distance (sample_position sample) mn <> 0 ->
    collision (obstacle_list cfg) (candidate cfg sample mn) = false ->
    step cfg sample nl Extended (attach nl m (candidate cfg sample mn))
| step_collided m mn :
    all_far cfg nl -> first_nearest nl sample m mn ->
    sample_distance (sample_position sample) mn <> 0 ->
    collision (obstacle_list cfg) (candidate cfg sample mn) = true ->
    step cfg sample nl Collided nl
| step_stalled m mn :
    all_far cfg nl -> first_nearest nl sample m mn ->
    sample_distance (sample_position sample) mn = 0 ->
    step cfg sample nl Stalled nl.

(** The list [nl'] is [nl] with exactly one node committed: a new last
    node at [v] whose parent is the node of index [p], that parent with
    the new index appended to its children, and every other node as it
    was. *)
Definition commits_one (nl : list TreeNode) (p : nat) (v : Position)
  (nl' : list TreeNode) : Prop :=
  length nl' = S (length nl) /\
  nl' !! length nl = Some (mkTreeNode v (Some p) []) /\
  (exists pn, nl !! p = Some pn /\
     nl' !! p = Some (mkTreeNode (val pn) (parent pn)
                        (children pn ++ [length nl]))) /\
  (forall j, j <> p -> (j < length nl)%nat -> nl' !! j = nl !! j).

(** ** Invariants of a run *)

(** The node [n] has a parent in the list, at distance [d]. *)
Definition parent_at_distance (nl : list TreeNode) (d : R) (n : TreeNode) : Prop :=
  exists p pn, parent n = Some p /\ nl !! p = Some pn /\
               euclid (val n) (val pn) = d.

(** A node committed by an extension: it clears every obstacle and lies
    at distance [d] from its parent. *)
Definition extension_ok (cfg : RunConfig) (nl : list TreeNode) (d : R)
  (n : TreeNode) : Prop :=
  collision (obstacle_list cfg) (val n) = false /\ parent_at_distance nl d n.

(** The tree while it grows: well formed, and every node but the root was
    committed by an extension. *)
Definition grown (cfg : RunConfig) (nl : list TreeNode) : Prop :=
  well_formed (start_position cfg) nl /\
  forall i n, (0 < i)%nat -> nl !! i = Some n ->
    extension_ok cfg nl (Rabs (step_size cfg)) n.

(** The tree of a completed run: a grown tree with the goal node attached
    to a node within tolerance. *)
Definition goal_attached (cfg : RunConfig) (nl' : list TreeNode) : Prop :=
  exists nl i n, grown cfg nl /\ nl !! i = Some n /\ near_goal cfg n /\
                 nl' = attach nl i (goal_position cfg).

(** The iteration leaves the tree as it was. *)
Definition discarded (cfg : RunConfig) (sample : Z * Z) (nl : list TreeNode)
  : Prop :=
  iteration cfg sample nl = Some (Collided, nl) \/
  iteration cfg sample nl = Some (Stalled, nl).

(** The position lies strictly outside the sampled rectangle. *)
Definition outside_map (cfg : RunConfig) (p : Position) : Prop :=
  p.1 < - IZR (map_size cfg).1 \/ IZR (map_size cfg).1 < p.1 \/
  p.2 < - IZR (map_size cfg).2 \/ IZR (map_size cfg).2 < p.2.

(** ** Paths *)

(** The poses the walk from the node [c] emits: one for each node from [c]
    upwards that has a parent, none for the node without a parent at which
    the walk ends. *)
Inductive climbs (nl : list TreeNode) : nat -> list (nat * Position) -> Prop :=
| climbs_top c top :
    nl !! c = Some top -> parent top = None -> climbs nl c []
| climbs_up c node p poses :
    nl !! c = Some node -> parent node = Some p -> climbs nl p poses ->
    climbs nl c ((c, val node) :: poses).

(** ** Concrete configurations *)

(** A corridor along the x-axis: the goal two steps away from the start,
    with the two obstacles of the source's own configuration. *)
Definition corridor_with (limit : Z) : RunConfig :=
  mkRunConfig (0, 0) (2, 0) (10, 10)%Z limit (1 / 2) 1
    [Circle 1 1 1; Rectangle (-1) (-1) 1 1 0].

Definition corridor : RunConfig := corridor_with 1000.

(** The tree of a corridor run after one and after two extensions, and
    after the goal was attached. *)
Definition corridor_1 : list TreeNode :=
  [mkTreeNode (0, 0) None [1%nat]; mkTreeNode (1, 0) (Some 0%nat) []].

Definition corridor_2 : list TreeNode :=
  [mkTreeNode (0, 0) None [1%nat]; mkTreeNode (1, 0) (Some 0%nat) [2%nat];
   mkTreeNode (2, 0) (Some 1%nat) []].

Definition corridor_3 : list TreeNode :=
  [mkTreeNode (0, 0) None [1%nat]; mkTreeNode (1, 0) (Some 0%nat) [2%nat];
   mkTreeNode (2, 0) (Some 1%nat) [3%nat]; mkTreeNode (2, 0) (Some 2%nat) []].

(** The goal inside an obstacle, within tolerance of the start. *)
Definition blocked_goal : RunConfig :=
  mkRunConfig (0, 0) (1 / 4, 0) (10, 10)%Z 1000%Z (1 / 2) 1
    [Circle (1 / 4) 0 (1 / 10)].

(** One obstacle over the whole map, centred at the goal; five nodes at
    most. *)
Definition walled : RunConfig :=
  mkRunConfig (3, 0) (0, 0) (10, 10)%Z 5%Z (1 / 2) 1 [Circle 0 0 100].

(** The source's own goal, tolerance, step size and obstacles, with the
    start next to the left edge of the map. *)
Definition edge : RunConfig :=
  mkRunConfig (- (99 / 10), 0) (16 / 5, - (41 / 10)) (10, 10)%Z 1000%Z
    (1 / 2) (1 / 5) [Circle 1 1 1; Rectangle (-1) (-1) 1 1 0].

(** ** Further invariants of a run *)

(** Every node but the last one is outside the goal tolerance. *)
Definition head_far (cfg : RunConfig) (nl : list TreeNode) : Prop :=
  forall j n, (S j < length nl)%nat -> nl !! j = Some n -> ~ near_goal cfg n.

(** The tree of a completed run, seen from the scan that completed it: the
    goal node hangs from the last node of the tree it was attached to. *)
Definition goal_on_last (cfg : RunConfig) (nl' : list TreeNode) : Prop :=
  exists nl n, head_far cfg nl /\ last nl = Some n /\ near_goal cfg n /\
               nl' = attach nl (length nl - 1) (goal_position cfg).

(** The list [nl'] keeps every node of [nl] in its place, with its
    position and parent; children lists only grow at their end. *)
Definition keeps (nl nl' : list TreeNode) : Prop :=
  forall i n, nl !! i = Some n ->
    exists n', nl' !! i = Some n' /\ val n' = val n /\ parent n' = parent n /\
               children n `prefix_of` children n'.


(** ** Plotting: [plot_rrt_2D] *)

(** The calls [plot_rrt_2D] makes to matplotlib, in order.  [plot xs ys c]
    stands for [plt.plot([x0, x1], [y0, y1], c)]: one line from
    [(x0, y0)] to [(x1, y1)], in the colour [c]. *)
Inductive PlotCall : Type :=
| xlim (lo hi : R)
| ylim (lo hi : R)
| scatter (x y : R) (c : string)
| ion
| ioff
| pause (interval : R)
| plot (xs ys : R * R) (c : string)
| show.

(** The line from [node] to the node of index [p]; [None] when the
    reference dangles ([None.val]). *)
Definition segment (node_list : list TreeNode) (node : TreeNode) (p : nat)
  (c : string) : option PlotCall :=
  match node_list !! p with
  | Some parent_node =>
      Some (plot ((val node).1, (val parent_node).1)
                 ((val node).2, (val parent_node).2) c)
  | None => None
  end.

(** The [for node in node_list] loop: a green line for every node that has
    a parent, over the nodes [l] of [node_list]. *)
Fixpoint tree_lines (animate : bool) (node_list l : list TreeNode)
  : option (list PlotCall) :=
  match l with
  | [] => Some []
  | node :: rest =>
      match parent node with
      | None => tree_lines animate node_list rest
      | Some p =>
          match segment node_list node p "g",
                tree_lines animate node_list rest with
          | Some line, Some calls =>
              Some (line :: (if animate then [pause (5 / 100)] else [])
                         ++ calls)
          | _, _ => None
          end
      end
  end.

(** The [while current_node.parent] loop: a red line from each node on the
    way up to its parent. *)
Fixpoint path_lines (fuel : nat) (animate : bool) (node_list : list TreeNode)
  (current : nat) : option (list PlotCall) :=
  match fuel with
  | O => None
  | S fuel' =>
      match node_list !! current with
      | None => None
      | Some current_node =>
          match parent current_node with
          | None => Some []
          | Some p =>
              match segment node_list current_node p "r",
                    path_lines fuel' animate node_list p with
              | Some line, Some calls =>
                  Some (line :: (if animate then [pause (1 / 10000)] else [])
                             ++ calls)
              | _, _ => None
              end
          end
      end
  end.

Definition plot_rrt_2D (cfg : RunConfig) (animate : bool)
  (node_list : list TreeNode) : option (list PlotCall) :=
  match node_list with
  | [] => None
  | _ =>
      match tree_lines animate node_list node_list,
            path_lines (length node_list) animate node_list
              (length node_list - 1) with
      | Some tree, Some path =>
          Some ([xlim (- IZR (map_size cfg).1) (IZR (map_size cfg).1);
                 ylim (- IZR (map_size cfg).2) (IZR (map_size cfg).2);
                 scatter (start_position cfg).1 (start_position cfg).2 "r";
                 scatter (goal_position cfg).1 (goal_position cfg).2 "b"]
                ++ (if animate then [ion] else [])
                ++ tree ++ path
                ++ (if animate then [ioff] else [])
                ++ [show])
      | _, _ => None
      end
  end.

(** The lines of colour [c] among the calls, each as its two end points. *)
Fixpoint lines (c : string) (calls : list PlotCall)
  : list (Position * Position) :=
  match calls with
  | [] => []
  | plot xs ys c' :: rest =>
      if String.eqb c' c then ((xs.1, ys.1), (xs.2, ys.2)) :: lines c rest
      else lines c rest
  | _ :: rest => lines c rest
  end.

(** The segments form one polyline from [a] to [z]: each starts where the
    one before it ends. *)
Inductive chained : Position -> list (Position * Position) -> Position -> Prop :=
| chained_nil a : chained a [] a
| chained_cons a b rest z :
    chained b rest z -> chained a ((a, b) :: rest) z.

(** The calls that only serve the animation. *)
Definition animation_call (call : PlotCall) : bool :=
  match call with
  | ion | ioff | pause _ => true
  | _ => false
  end.


(** The calls without those of the animation. *)
Definition still (calls : list PlotCall) : list PlotCall :=
  List.filter (fun call => negb (animation_call call)) calls.

(** ** Markers: [create_marker] and [publish_markers] *)

(** The marker kinds and the action the node uses, constants of
    [visualization_msgs.msg.Marker]. *)
Inductive MarkerType : Type := SPHERE | CYLINDER | CUBE.
Inductive MarkerAction : Type := ADD.

(** The fields of a [Marker] message that [create_marker] sets. *)
Record Marker : Type := mkMarker {
  frame_id : string;
  ns : string;
  marker_id : Z;
  marker_type : MarkerType;
  marker_action : MarkerAction;
  scale : R * R * R;
  color : R * R * R * R;
  position : R * R * R
}.

(** [create_marker]: the lists are read by index, [scale[0..2]],
    [color[0..3]] and [position[0..2]]; a list that is too short raises
    (here [None]), further elements are ignored. *)
Definition create_marker (type : MarkerType) (id : Z)
  (color_list scale_list position_list : list R) : option Marker :=
  match scale_list !! 0%nat, scale_list !! 1%nat, scale_list !! 2%nat with
  | Some sx, Some sy, Some sz =>
      match color_list !! 0%nat, color_list !! 1%nat,
            color_list !! 2%nat, color_list !! 3%nat with
      | Some r, Some g, Some b, Some a =>
          match position_list !! 0%nat, position_list !! 1%nat,
                position_list !! 2%nat with
          | Some px, Some py, Some pz =>
              Some (mkMarker "map" "rrt_markers" id type ADD
                      (sx, sy, sz) (r, g, b, a) (px, py, pz))
          | _, _, _ => None
          end
      | _, _, _, _ => None
      end
  | _, _, _ => None
  end.

(** [l.index(l[i])] for a list of [n] objects: the first slot whose object
    equals the one of slot [i].  [same j i] stands for the comparison
    [l[j] == l[i]] as [list.index] makes it (identical objects are equal;
    otherwise the [__eq__] of the class decides).  [None] is Python's
    [ValueError]. *)
Definition py_index (same : nat -> nat -> bool) (n i : nat) : option nat :=
  List.find (fun j => same j i) (seq 0 n).

(** A loop that appends one marker per element; [i] is the slot of the
    first element of [l]. *)
Fixpoint markers_from {A : Type} (f : nat -> A -> option Marker) (i : nat)
  (l : list A) : option (list Marker) :=
  match l with
  | [] => Some []
  | x :: rest =>
      match f i x, markers_from f (S i) rest with
      | Some m, Some ms => Some (m :: ms)
      | _, _ => None
      end
  end.

Section Markers.

(** Modelled from the spec: the classes [TreeNode], [Circle] and
    [Rectangle] of submodules/, whose [__eq__] (if any) [list.index] calls.
    The comparison between the objects of two slots of [node_list], and of
    two slots of [obstacle_list], is left open. *)
Variables same_node same_obstacle : nat -> nat -> bool.

Variable cfg : RunConfig.

(** The body of the loop over the nodes, for the node of slot [i]. *)
Definition node_marker (node_list : list TreeNode) (i : nat) (node : TreeNode)
  : option Marker :=
  match py_index same_node (length node_list) i with
  | Some index =>
      create_marker SPHERE (Z.of_nat index + 2) [0; 1; 0; 1]
        [1 / 10; 1 / 10; 1 / 10] [(val node).1; (val node).2; 0]
  | None => None
  end.

(** The body of the loop over the obstacles, for the obstacle of slot [j]. *)
Definition obstacle_marker (node_list : list TreeNode) (j : nat) (o : Obstacle)
  : option Marker :=
  match py_index same_obstacle (length (obstacle_list cfg)) j with
  | Some index =>
      let id := (Z.of_nat index + Z.of_nat (length node_list) + 2)%Z in
      match o with
      | Circle x y radius =>
          create_marker CYLINDER id [1; 0; 0; 1]
            [radius * 2; radius * 2; 1 / 10] [x; y; 0]
      | Rectangle x y width height _ =>
          create_marker CUBE id [1; 0; 0; 1]
            [width; height; 1 / 10] [x; y; 0]
      end
  | None => None
  end.

(** The marker array handed to the publisher. *)
Definition publish_markers (node_list : list TreeNode) : option (list Marker) :=
  match markers_from (node_marker node_list) 0 node_list,
        markers_from (obstacle_marker node_list) 0 (obstacle_list cfg) with
  | Some node_markers, Some obstacle_markers =>
      Some (node_markers ++ obstacle_markers)
  | _, _ => None
  end.

End Markers.


(** ** The whole of [run_rrt_2D]: planning, then publishing *)

(** What a call of [run_rrt_2D] leaves behind: the log line of a run that
    gave up, or the marker array, the path and the plot of a completed one.
    [StillLooping]: the samples given did not take the run out of its loop.
    [Exception]: one of the steps raised. *)
Inductive Published : Type :=
| PathNotFound
| Presented (markers : list Marker) (path : list Position)
    (drawing : list PlotCall)
| StillLooping
| Exception.

Definition run_and_publish (same_node same_obstacle : nat -> nat -> bool)
  (cfg : RunConfig) (animate : bool) (samples : list (Z * Z)) : Published :=
  match run_rrt_2D cfg samples with
  | Finished false _ => PathNotFound
  | Finished true node_list =>
      match publish_markers same_node same_obstacle cfg node_list,
            publish_path node_list,
            plot_rrt_2D cfg animate node_list with
      | Some markers, Some path, Some drawing => Presented markers path drawing
      | _, _, _ => Exception
      end
  | Pending _ => StillLooping
  | Crashed => Exception
  end.


(** * Properties *)

(** ** Comparisons and norms *)

Lemma Rltb_true (x y : R) : Rltb x y = true <-> x < y.
Proof. unfold Rltb. destruct (Rlt_dec x y); split; intros; try easy. Qed.

Lemma Rltb_false (x y : R) : Rltb x y = false <-> y <= x.
Proof.
  unfold Rltb. destruct (Rlt_dec x y); split; intros; try easy; lra.
Qed.

Lemma Rneqb_true (x y : R) : Rneqb x y = true <-> x <> y.
Proof. unfold Rneqb. destruct (Req_dec_T x y); split; intros; easy. Qed.

Lemma Rneqb_false (x y : R) : Rneqb x y = false <-> x = y.
Proof. unfold Rneqb. destruct (Req_dec_T x y); split; intros; easy. Qed.

Lemma sum_squares_nonneg (a b : R) : 0 <= a * a + b * b.
Proof. nra. Qed.

Lemma norm_nonneg (a : Position) : 0 <= norm a.
Proof. apply sqrt_pos. Qed.

Lemma norm_square (a : Position) : norm a * norm a = a.1 * a.1 + a.2 * a.2.
Proof. apply sqrt_sqrt, sum_squares_nonneg. Qed.

(** The value of a norm, from its square. *)
Lemma norm_value (a : Position) (d : R) :
  0 <= d -> d * d = a.1 * a.1 + a.2 * a.2 -> norm a = d.
Proof.
  intros Hd Hsq. unfold norm. apply sqrt_lem_1; auto using sum_squares_nonneg.
Qed.

Lemma norm_vsub (a b : Position) : norm (vsub a b) = euclid a b.
Proof. unfold norm, euclid, vsub. simpl. f_equal. ring. Qed.

(** ** The collision test *)

Lemma collides_circle (x y radius : R) (p : Position) :
  collides (Circle x y radius) p = true <-> euclid p (x, y) < radius.
Proof. simpl. rewrite Rltb_true, norm_vsub. reflexivity. Qed.

Lemma collides_rectangle (x y width height orientation : R) (p : Position) :
  collides (Rectangle x y width height orientation) p = true <->
  (x - width / 2 < p.1 < x + width / 2) /\
  (y - height / 2 < p.2 < y + height / 2).
Proof.
  simpl. rewrite !andb_true_iff, !Rltb_true. tauto.
Qed.

Lemma collision_false (obstacles : list Obstacle) (p : Position) :
  collision obstacles p = false <->
  forall o, In o obstacles -> collides o p = false.
Proof.
  induction obstacles as [|o rest IH]; simpl.
  - split; [intros _ o [] | reflexivity].
  - destruct (collides o p) eqn:E.
    + split; [discriminate | intros H; rewrite <- E; apply H; now left].
    + rewrite IH. split.
      * intros H o' [<- | Hin]; auto.
      * intros H o' Hin. apply H. now right.
Qed.

(** C5. [collides] is a function of the obstacle and the point alone.  For a
    circle it holds exactly when the Euclidean distance from the point to
    the centre is strictly below the radius; for a rectangle exactly when
    the point lies in the open box around the centre.  A point on the
    boundary does not collide: not at distance exactly the radius, and not
    on any of the four edges. *)
Theorem collides_strict_interior :
  (forall x y radius p,
     collides (Circle x y radius) p = true <-> euclid p (x, y) < radius) /\
  (forall x y width height orientation p,
     collides (Rectangle x y width height orientation) p = true <->
     (x - width / 2 < p.1 < x + width / 2) /\
     (y - height / 2 < p.2 < y + height / 2)) /\
  (forall x y p, collides (Circle x y (euclid p (x, y))) p = false) /\
  (forall x y width height orientation q,
     collides (Rectangle x y width height orientation) (x - width / 2, q) = false /\
     collides (Rectangle x y width height orientation) (x + width / 2, q) = false /\
     collides (Rectangle x y width height orientation) (q, y - height / 2) = false /\
     collides (Rectangle x y width height orientation) (q, y + height / 2) = false).
Proof.
  split; [exact collides_circle | split; [exact collides_rectangle | split]].
  - intros x y p. apply not_true_is_false. rewrite collides_circle. lra.
  - intros x y w h o q.
    repeat split; apply not_true_is_false; rewrite collides_rectangle;
      simpl; lra.
Qed.

(** ** Attaching a node *)

Section Attach.

Context (nl : list TreeNode) (i : nat) (v : Position).

Lemma length_attach : length (attach nl i v) = S (length nl).
Proof. unfold attach. rewrite length_app, length_alter. simpl. lia. Qed.

Lemma attach_lookup_new :
  attach nl i v !! length nl = Some (new_TreeNode v (Some i)).
Proof.
  unfold attach. rewrite lookup_app_r; rewrite length_alter; [|lia].
  now rewrite Nat.sub_diag.
Qed.

Lemma attach_lookup_parent (n : TreeNode) :
  nl !! i = Some n -> attach nl i v !! i = Some (add_child (length nl) n).
Proof.
  intros Hn. unfold attach.
  rewrite lookup_app_l by (rewrite length_alter; eapply lookup_lt_Some; eauto).
  now rewrite list_lookup_alter_eq, Hn.
Qed.

Lemma attach_lookup_other (j : nat) :
  j <> i -> (j < length nl)%nat -> attach nl i v !! j = nl !! j.
Proof.
  intros Hne Hlt. unfold attach.
  rewrite lookup_app_l by now rewrite length_alter.
  now rewrite list_lookup_alter_ne by congruence.
Qed.

(** Below the new node, [attach] changes children lists only. *)
Lemma attach_lookup_old (j : nat) (n : TreeNode) :
  nl !! j = Some n ->
  exists n', attach nl i v !! j = Some n' /\
             val n' = val n /\ parent n' = parent n.
Proof.
  intros Hn. destruct (decide (j = i)) as [->|Hne].
  - exists (add_child (length nl) n). split; [now apply attach_lookup_parent|].
    now split.
  - exists n. rewrite attach_lookup_other; eauto using lookup_lt_Some.
Qed.

Lemma attach_lookup_inv (j : nat) (n' : TreeNode) :
  attach nl i v !! j = Some n' ->
  (j = length nl /\ n' = new_TreeNode v (Some i)) \/
  (exists n, nl !! j = Some n /\ val n' = val n /\ parent n' = parent n /\
             children n' = if decide (j = i) then children n ++ [length nl]
                           else children n).
Proof.
  intros Hj. assert (j < S (length nl))%nat as Hlt.
  { rewrite <- length_attach. eapply lookup_lt_Some; eauto. }
  destruct (decide (j = length nl)) as [->|Hne].
  - left. rewrite attach_lookup_new in Hj. now inversion Hj.
  - right. destruct (lookup_lt_is_Some_2 nl j) as [n Hn]; [lia|].
    exists n. split; [easy|]. destruct (decide (j = i)) as [->|Hji].
    + rewrite (attach_lookup_parent n Hn) in Hj. inversion Hj. now simpl.
    + rewrite attach_lookup_other in Hj by (easy || lia).
      rewrite Hn in Hj. now inversion Hj.
Qed.

Lemma parent_of_attach_old (j : nat) :
  (j < length nl)%nat -> parent_of (attach nl i v) j = parent_of nl j.
Proof.
  intros Hlt. unfold parent_of.
  destruct (lookup_lt_is_Some_2 nl j Hlt) as [n Hn].
  destruct (attach_lookup_old j n Hn) as (n' & -> & _ & Hp).
  now rewrite Hn.
Qed.

Lemma parent_of_attach_new : parent_of (attach nl i v) (length nl) = Some i.
Proof. unfold parent_of. now rewrite attach_lookup_new. Qed.

End Attach.

(** ** The scan *)

Section Scan.

Context (cfg : RunConfig) (rp : Position).

(** The scan stops at the first node within the goal tolerance, whatever
    follows it in the list and whatever the scan holds at that point. *)
Lemma scan_goal_first (pre suf : list TreeNode) (n : TreeNode) (i : nat)
  (s : ScanState) :
  Forall (fun m => ~ near_goal cfg m) pre -> near_goal cfg n ->
  scan cfg rp (pre ++ n :: suf) i s = GoalReached (i + length pre).
Proof.
  intros Hpre Hn. revert i s.
  induction Hpre as [|m pre Hm _ IH]; intros i s; simpl.
  - apply Rltb_true in Hn. rewrite Hn. f_equal. lia.
  - apply Rnot_lt_le, Rltb_false in Hm. rewrite Hm, IH. f_equal. lia.
Qed.

(** When the scan breaks at [i], the node there is within tolerance and
    none before it is. *)
Lemma scan_goal_inv (l : list TreeNode) (i k : nat) (s : ScanState) :
  scan cfg rp l i s = GoalReached k ->
  exists n, (i <= k)%nat /\ l !! (k - i)%nat = Some n /\ near_goal cfg n /\
            forall j m, (j < k - i)%nat -> l !! j = Some m -> ~ near_goal cfg m.
Proof.
  revert i s. induction l as [|node rest IH]; intros i s; simpl; [discriminate|].
  destruct (Rltb _ _) eqn:E.
  - intros [= <-]. exists node. rewrite Nat.sub_diag.
    split; [lia|]. split; [easy|]. split; [now apply Rltb_true|]. lia.
  - intros H. apply IH in H as (n & Hle & Hn & Hnear & Hbefore).
    exists n. split; [lia|].
    replace (k - i)%nat with (S (k - S i)) by lia.
    split; [easy|]. split; [easy|].
    intros [|j] m Hj; simpl.
    + intros [= <-]. apply Rltb_false in E. unfold near_goal. lra.
    + apply Hbefore. lia.
Qed.

Lemma scan_cons (node : TreeNode) (rest : list TreeNode) (i : nat)
  (s : ScanState) :
  scan cfg rp (node :: rest) i s =
  if Rltb (norm (vsub (goal_position cfg) (val node))) (goal_tolerance cfg)
  then GoalReached i else scan cfg rp rest (S i) (pass rp i node s).
Proof. reflexivity. Qed.

(** Passing the node of index [i] keeps track of the first nearest node. *)
Lemma pass_nearest (nl : list TreeNode) (i : nat) (node : TreeNode)
  (s : ScanState) :
  nl !! i = Some node ->
  (i = 0%nat /\ s = scan_init) \/
  (exists m mn, tracks nl rp s m mn /\ nearest_below nl rp i m mn) ->
  exists m mn, tracks nl rp (pass rp i node s) m mn /\
               nearest_below nl rp (S i) m mn.
Proof.
  intros Hnode [[-> ->]|(m & mn & (Hm & Hmn & Hvec & Hd) & Hlt & _ & Hle & Hfirst)].
  - exists 0%nat, node. split; [now repeat split|].
    split; [lia|]. split; [easy|]. split; [|lia].
    intros j n Hj Hn. assert (j = 0%nat) as -> by lia.
    assert (n = node) as -> by congruence. lra.
  - unfold pass. rewrite Hd. simpl. destruct (Rltb _ _) eqn:E.
    + apply Rltb_true in E. exists i, node. split.
      { repeat split; simpl; auto. now rewrite Rmin_left by lra. }
      split; [lia|]. split; [easy|]. split.
      * intros j n Hj Hn. destruct (decide (j = i)) as [->|Hne].
        -- assert (n = node) as -> by congruence. lra.
        -- specialize (Hle j n). unfold sample_distance in *.
           lapply Hle; [intros H'; specialize (H' Hn); lra | lia].
      * intros j n Hj Hn. specialize (Hle j n Hj Hn).
        unfold sample_distance in *. lra.
    + apply Rltb_false in E. exists m, mn. split.
      { repeat split; simpl; auto. now rewrite Rmin_right by lra. }
      split; [lia|]. split; [easy|]. split; [|easy].
      intros j n Hj Hn. destruct (decide (j = i)) as [->|Hne].
      * assert (n = node) as -> by congruence. exact E.
      * apply (Hle j n); [lia|easy].
Qed.

(** A scan that runs to its end found no node within tolerance, and
    tracks the first nearest node of what it scanned. *)
Lemma scan_done_nearest (nl l : list TreeNode) (i : nat) (s s' : ScanState) :
  (forall j n, l !! j = Some n -> nl !! (i + j)%nat = Some n) ->
  (i = 0%nat /\ s = scan_init) \/
  (exists m mn, tracks nl rp s m mn /\ nearest_below nl rp i m mn) ->
  scan cfg rp l i s = ScanDone s' ->
  Forall (fun n => ~ near_goal cfg n) l /\
  ((l = [] /\ s' = s) \/
   (exists m mn, tracks nl rp s' m mn /\
                 nearest_below nl rp (i + length l) m mn)).
Proof.
  revert i s. induction l as [|node rest IH]; intros i s Hl Hs.
  - simpl. intros [= <-]. split; [constructor|now left].
  - rewrite scan_cons. destruct (Rltb _ _) eqn:E; [discriminate|].
    apply Rltb_false in E. intros Hscan.
    assert (nl !! i = Some node) as Hnode.
    { specialize (Hl 0%nat node eq_refl). now rewrite Nat.add_0_r in Hl. }
    pose proof (pass_nearest nl i node s Hnode Hs) as Hpass.
    apply IH in Hscan as [Hfar Hres].
    + split; [constructor; [unfold near_goal; lra|easy]|]. right.
      destruct Hres as [[-> ->]|(m & mn & Ht & Hn)].
      * simpl. now rewrite Nat.add_1_r.
      * exists m, mn. split; [easy|].
        simpl. now rewrite Nat.add_succ_r.
    + intros j n Hj. replace (S i + j)%nat with (i + S j)%nat by lia.
      now apply Hl.
    + now right.
Qed.

End Scan.

(** ** One iteration *)

Lemma all_far_Forall (cfg : RunConfig) (nl : list TreeNode) :
  Forall (fun n => ~ near_goal cfg n) nl <-> all_far cfg nl.
Proof. unfold all_far. rewrite Forall_lookup. reflexivity. Qed.

(** An iteration on a non-empty node list does not raise, and does one of
    the four things [step] lists. *)
Lemma iteration_step (cfg : RunConfig) (sample : Z * Z) (nl : list TreeNode) :
  nl <> [] ->
  exists o nl', iteration cfg sample nl = Some (o, nl') /\
                step cfg sample nl o nl'.
Proof.
  intros Hne. unfold iteration.
  destruct (scan _ _ _ _ _) as [k|s] eqn:Hscan.
  - apply scan_goal_inv in Hscan as (n & _ & Hn & Hnear & Hbefore).
    rewrite Nat.sub_0_r in *. eexists _, _. split; [reflexivity|].
    now apply (step_completed _ _ _ k n).
  - apply (scan_done_nearest _ _ nl) in Hscan; [|now intros j n|now left].
    destruct Hscan as [Hfar [[-> _]|(m & mn & (Hm & Hmn & Hvec & Hd) & Hnear)]];
      [easy|].
    apply all_far_Forall in Hfar.
    rewrite Hd, Hmn, Hvec, Hm. destruct (Rneqb _ _) eqn:Hz.
    + apply Rneqb_true in Hz.
      fold (sample_position sample) in *.
      change (steer cfg (val mn) _ _) with (candidate cfg sample mn).
      destruct (collision _ _) eqn:Hc; eexists _, _; (split; [reflexivity|]).
      * now apply (step_collided _ _ _ m mn).
      * now apply (step_extended _ _ _ m mn).
    + apply Rneqb_false in Hz. eexists _, _. split; [reflexivity|].
      now apply (step_stalled _ _ _ m mn).
Qed.

(** The first nearest node is unique. *)
Lemma nearest_below_unique (nl : list TreeNode) (rp : Position) (k m m' : nat)
  (mn mn' : TreeNode) :
  nearest_below nl rp k m mn -> nearest_below nl rp k m' mn' ->
  m = m' /\ mn = mn'.
Proof.
  intros (Hk & Hm & Hle & Hfirst) (Hk' & Hm' & Hle' & Hfirst').
  assert (m = m') as <-.
  { destruct (Nat.lt_trichotomy m m') as [Hlt|[Heq|Hgt]]; [|easy|].
    - specialize (Hfirst' m mn Hlt Hm). specialize (Hle m' mn' Hk' Hm'). lra.
    - specialize (Hfirst m' mn' Hgt Hm'). specialize (Hle' m mn Hk Hm). lra. }
  split; congruence.
Qed.

(** [step] determines what the iteration returns. *)
Lemma step_iteration (cfg : RunConfig) (sample : Z * Z) (nl nl' : list TreeNode)
  (o : Outcome) :
  step cfg sample nl o nl' -> iteration cfg sample nl = Some (o, nl').
Proof.
  intros Hstep.
  assert (nl <> []) as Hne.
  { intros ->. inversion Hstep; subst;
      repeat match goal with
        | H : first_nearest _ _ _ _ |- _ => destruct H as (_ & H & _)
        | H : [] !! _ = Some _ |- _ => now rewrite lookup_nil in H
        end. }
  destruct (iteration_step cfg sample nl Hne) as (o2 & nl2 & -> & Hstep2).
  assert (forall i n m mn, nl !! i = Some n -> near_goal cfg n ->
            all_far cfg nl -> first_nearest nl sample m mn -> False) as Hx.
  { intros i n m mn Hi Hnear Hfar _. exact (Hfar i n Hi Hnear). }
  inversion Hstep; subst; inversion Hstep2; subst;
    try (exfalso; eapply Hx; eassumption);
    try match goal with
      | H1 : first_nearest _ _ ?m ?mn, H2 : first_nearest _ _ ?m' ?mn' |- _ =>
          destruct (nearest_below_unique _ _ _ _ _ _ _ H1 H2) as [-> ->]
      end; try congruence.
  match goal with
  | Ha : forall j m, (j < ?a)%nat -> _, Hb : forall j m, (j < ?b)%nat -> _ |- _ =>
      assert (a = b) as <-; [|reflexivity];
      destruct (Nat.lt_trichotomy a b) as [Hlt|[Heq|Hgt]]; [|easy|];
      exfalso; first [now eapply Ha; eauto | now eapply Hb; eauto]
  end.
Qed.

(** An iteration that meets a node within tolerance attaches the goal. *)
Lemma iteration_goal (cfg : RunConfig) (sample : Z * Z)
  (pre suf : list TreeNode) (n : TreeNode) :
  Forall (fun m => ~ near_goal cfg m) pre -> near_goal cfg n ->
  iteration cfg sample (pre ++ n :: suf)
  = Some (Completed, attach (pre ++ n :: suf) (length pre) (goal_position cfg)).
Proof.
  intros Hpre Hn. unfold iteration.
  now rewrite (scan_goal_first cfg _ pre suf n 0 scan_init Hpre Hn).
Qed.

(** ** The run, as a sequence of steps *)

(** An invariant [P] of the growing tree and a property [Q] of the
    completed one, carried through the [while] loop. *)
Lemma rrt_loop_invariant (cfg : RunConfig) (P Q : list TreeNode -> Prop) :
  (forall nl, P nl -> nl <> []) ->
  (forall sample nl nl',
     P nl -> step cfg sample nl Extended nl' -> P nl') ->
  (forall sample nl nl',
     P nl -> step cfg sample nl Completed nl' -> Q nl') ->
  forall samples nl, P nl ->
    match rrt_loop cfg samples nl with
    | Finished true nl' => Q nl'
    | Finished false nl' => P nl'
    | Pending nl' => P nl'
    | Crashed => False
    end.
Proof.
  intros Hne Hext Hgoal samples.
  induction samples as [|sample rest IH]; intros nl HP; simpl;
    destruct (_ <? _)%Z; try easy.
  destruct (iteration_step cfg sample nl (Hne nl HP)) as (o & nl' & -> & Hstep).
  destruct o.
  - eauto.
  - apply IH. eauto.
  - inversion Hstep; subst. now apply IH.
  - inversion Hstep; subst. now apply IH.
Qed.

(** ** Well-formedness is kept by [attach] *)

Lemma filter_agree {A : Type} (P1 P2 : A -> Prop)
  `{!forall x, Decision (P1 x), !forall x, Decision (P2 x)} (l : list A) :
  (forall x, x ∈ l -> P1 x <-> P2 x) -> filter P1 l = filter P2 l.
Proof.
  induction l as [|a l IH]; intros Hagree; [easy|].
  assert (filter P1 l = filter P2 l) as E.
  { apply IH. intros x Hx. apply Hagree. now right. }
  assert (P1 a <-> P2 a) as Ha by (apply Hagree; left).
  destruct (decide (P1 a)).
  - rewrite !filter_cons_True by tauto. now rewrite E.
  - rewrite !filter_cons_False by tauto. easy.
Qed.

Lemma kids_attach (nl : list TreeNode) (i j : nat) (v : Position) :
  kids (attach nl i v) j =
  kids nl j ++ (if decide (i = j) then [length nl] else []).
Proof.
  unfold kids. rewrite length_attach, seq_S, filter_app. f_equal.
  - apply filter_agree. intros x Hx.
    apply elem_of_seq in Hx. now rewrite parent_of_attach_old by lia.
  - simpl. rewrite filter_cons, filter_nil, parent_of_attach_new.
    destruct (decide (i = j)) as [->|Hne].
    + now rewrite decide_True.
    + rewrite decide_False; [easy|congruence].
Qed.

Lemma parent_of_earlier (start : Position) (nl : list TreeNode) (j p : nat) :
  well_formed start nl -> parent_of nl j = Some p ->
  (p < j)%nat /\ (j < length nl)%nat.
Proof.
  intros [Hroot Hparent _]. unfold parent_of.
  destruct (nl !! j) as [n|] eqn:Hn; [|discriminate]. intros Hp.
  split; [|eapply lookup_lt_Some; eauto].
  destruct j as [|j].
  - destruct Hroot as (root & H0 & Hnone & _). congruence.
  - destruct (Hparent _ _ Hn) as (q & Hq & Hlt); [lia|]. congruence.
Qed.

Lemma kids_beyond (start : Position) (nl : list TreeNode) (k : nat) :
  well_formed start nl -> (length nl <= k)%nat -> kids nl k = [].
Proof.
  intros Hwf Hk. apply elem_of_nil_inv. intros j Hj.
  apply list_elem_of_filter in Hj as [Hp _].
  apply (parent_of_earlier start) in Hp; [lia|easy].
Qed.

Lemma well_formed_attach (start : Position) (nl : list TreeNode) (i : nat)
  (v : Position) :
  well_formed start nl -> (i < length nl)%nat ->
  well_formed start (attach nl i v).
Proof.
  intros Hwf Hi. pose proof Hwf as [Hroot Hparent Hkids]. split.
  - destruct Hroot as (root & H0 & Hp & Hv).
    destruct (attach_lookup_old nl i v 0 root H0) as (r' & Hr' & Hval & Hpar).
    exists r'. split; [easy|]. split; congruence.
  - intros j n' Hj Hpos.
    apply attach_lookup_inv in Hj as [[-> ->]|(n & Hn & _ & Hp & _)].
    + exists i. now split.
    + rewrite Hp. eauto.
  - intros j n' Hj. rewrite kids_attach.
    apply attach_lookup_inv in Hj as [[-> ->]|(n & Hn & _ & _ & Hc)].
    + rewrite decide_False by lia.
      now rewrite (kids_beyond start) by (easy || lia).
    + rewrite Hc, (Hkids j n Hn).
      destruct (decide (j = i)) as [->|Hne].
      * now rewrite decide_True.
      * rewrite decide_False by congruence. now rewrite app_nil_r.
Qed.

Lemma well_formed_start (cfg : RunConfig) :
  well_formed (start_position cfg) [start_node cfg].
Proof.
  split.
  - exists (start_node cfg). now repeat split.
  - intros [|i] n Hn Hpos; [lia|]. now destruct i.
  - intros [|i] n Hn; [|now destruct i]. injection Hn as <-. reflexivity.
Qed.

Lemma well_formed_nonempty (start : Position) (nl : list TreeNode) :
  well_formed start nl -> nl <> [].
Proof. intros [(root & H0 & _) _ _] ->. discriminate. Qed.

Lemma well_formed_step (cfg : RunConfig) (sample : Z * Z)
  (nl nl' : list TreeNode) (o : Outcome) :
  well_formed (start_position cfg) nl -> step cfg sample nl o nl' ->
  well_formed (start_position cfg) nl'.
Proof.
  intros Hwf Hstep.
  inversion Hstep; subst; auto; apply well_formed_attach; auto;
    repeat match goal with
      | H : first_nearest _ _ _ _ |- _ => destruct H as (_ & H & _)
      end; eauto using lookup_lt_Some.
Qed.

(** Every node of a well-formed list is linked to the root: following
    parent references from it reaches index 0, in at most as many hops as
    its own index. *)
Lemma well_formed_connected (start : Position) (nl : list TreeNode) :
  well_formed start nl ->
  forall i, (i < length nl)%nat ->
    exists k, (k <= i)%nat /\ ancestor nl k i = Some 0%nat.
Proof.
  intros Hwf i. induction i as [i IH] using lt_wf_ind. intros Hi.
  destruct i as [|i]; [exists 0%nat; now split|].
  destruct (lookup_lt_is_Some_2 nl (S i) Hi) as [n Hn].
  destruct (wf_parent _ _ Hwf _ _ Hn) as (p & Hp & Hlt); [lia|].
  destruct (IH p) as (k & Hk & Hanc); [lia|lia|].
  exists (S k). split; [lia|]. simpl. unfold parent_of. now rewrite Hn, Hp.
Qed.

(** ** Evaluating the planner on concrete inputs *)

Lemma norm_lt (a : Position) (d : R) :
  0 < d -> a.1 * a.1 + a.2 * a.2 < d * d -> norm a < d.
Proof.
  intros Hd Hsq. pose proof (norm_nonneg a). pose proof (norm_square a). nra.
Qed.

Lemma norm_ge (a : Position) (d : R) :
  d * d <= a.1 * a.1 + a.2 * a.2 -> d <= norm a.
Proof.
  intros Hsq. pose proof (norm_nonneg a). pose proof (norm_square a). nra.
Qed.

(** Replace the first norm of the goal by its value [d]. *)
Ltac norm_is d :=
  match goal with
  | |- context [norm ?a] =>
      rewrite (norm_value a d) by (simpl; lra)
  end.

(** Settle the comparisons between constants. *)
Ltac compare_consts :=
  repeat match goal with
    | |- context [Rltb ?x ?y] =>
        first [ rewrite (proj2 (Rltb_true x y)) by (simpl; lra)
              | rewrite (proj2 (Rltb_false x y)) by (simpl; lra) ]
    | |- context [Rneqb ?x ?y] =>
        first [ rewrite (proj2 (Rneqb_true x y)) by (simpl; lra)
              | rewrite (proj2 (Rneqb_false x y)) by (simpl; lra) ]
    | |- context [Rmin ?x ?y] =>
        first [ rewrite (Rmin_left x y) by (simpl; lra)
              | rewrite (Rmin_right x y) by (simpl; lra) ]
    end.


Lemma norm_le_norm (a b : Position) :
  a.1 * a.1 + a.2 * a.2 <= b.1 * b.1 + b.2 * b.2 -> norm a <= norm b.
Proof. intros H. now apply sqrt_le_1_alt. Qed.

Lemma norm_lt_norm (a b : Position) :
  a.1 * a.1 + a.2 * a.2 < b.1 * b.1 + b.2 * b.2 -> norm a < norm b.
Proof. intros H. apply sqrt_lt_1_alt. split; [apply sum_squares_nonneg|easy]. Qed.

Lemma first_nearest_intro (nl : list TreeNode) (sample : Z * Z) (m : nat)
  (mn : TreeNode) :
  nl !! m = Some mn ->
  Forall (fun n => sample_distance (sample_position sample) mn
                   <= sample_distance (sample_position sample) n) nl ->
  Forall (fun n => sample_distance (sample_position sample) mn
                   < sample_distance (sample_position sample) n) (take m nl) ->
  first_nearest nl sample m mn.
Proof.
  intros Hm Hle Hlt. split; [eapply lookup_lt_Some; eauto|]. split; [easy|]. split.
  - intros j n _ Hj. eapply Forall_lookup_1 in Hle; eauto.
  - intros j n Hjm Hj. apply (Forall_lookup_1 _ _ j n Hlt).
    now rewrite lookup_take_lt.
Qed.

Lemma candidate_value (cfg : RunConfig) (sample : Z * Z) (mn : TreeNode) (d : R) :
  sample_distance (sample_position sample) mn = d ->
  candidate cfg sample mn =
  ((val mn).1 + (IZR sample.1 - (val mn).1) / d * step_size cfg,
   (val mn).2 + (IZR sample.2 - (val mn).2) / d * step_size cfg).
Proof. intros <-. reflexivity. Qed.

(** Unfolding the [while] loop by one iteration. *)
Lemma rrt_loop_cons (cfg : RunConfig) (sample : Z * Z) (rest : list (Z * Z))
  (nl nl' : list TreeNode) (o : Outcome) :
  (Z.of_nat (length nl) < node_limit cfg)%Z ->
  iteration cfg sample nl = Some (o, nl') ->
  rrt_loop cfg (sample :: rest) nl =
  match o with
  | Completed => Finished true nl'
  | _ => rrt_loop cfg rest nl'
  end.
Proof.
  intros Hlt Hit. simpl. rewrite Hit.
  apply Z.ltb_lt in Hlt. rewrite Hlt. now destruct o.
Qed.

Lemma rrt_loop_nil (cfg : RunConfig) (nl : list TreeNode) :
  (Z.of_nat (length nl) < node_limit cfg)%Z -> rrt_loop cfg [] nl = Pending nl.
Proof. intros Hlt. simpl. apply Z.ltb_lt in Hlt. now rewrite Hlt. Qed.

Lemma rrt_loop_full (cfg : RunConfig) (samples : list (Z * Z))
  (nl : list TreeNode) :
  (node_limit cfg <= Z.of_nat (length nl))%Z ->
  rrt_loop cfg samples nl = Finished false nl.
Proof.
  intros Hge. apply Z.ltb_ge in Hge. destruct samples; simpl; now rewrite Hge.
Qed.

(** Equality of concrete node lists, coordinate by coordinate. *)
Create HintDb rrt_nodes.
#[local] Hint Unfold attach add_child start_node new_TreeNode
  corridor_1 corridor_2 corridor_3 : rrt_nodes.

Ltac same_nodes :=
  autounfold with rrt_nodes; simpl;
  repeat match goal with
    | |- Some _ = Some _ => f_equal
    | |- (_, _) = (_, _) => f_equal
    | |- _ :: _ = _ :: _ => f_equal
    | |- mkTreeNode _ _ _ = mkTreeNode _ _ _ => f_equal
    | |- @eq R _ _ => simpl; lra
    | |- _ => reflexivity
    end.

(** Comparisons of concrete distances, through their squares. *)
Ltac far_enough :=
  unfold near_goal, sample_distance; simpl;
  first [ apply Rle_not_lt, norm_ge; simpl; lra
        | apply norm_lt; simpl; lra
        | apply norm_le_norm; simpl; lra
        | apply norm_lt_norm; simpl; lra ].

(** A concrete candidate that clears every obstacle of a concrete list. *)
Ltac no_collision :=
  let o := fresh "o" in
  let Hin := fresh "Hin" in
  apply collision_false; intros o Hin; simpl in Hin;
  repeat (destruct Hin as [<-|Hin];
          [ apply not_true_is_false;
            first [ rewrite collides_circle, <- norm_vsub; far_enough
                  | rewrite collides_rectangle; simpl;
                    intros [[? ?] [? ?]]; lra ] | ]);
  try contradiction.

(** Run the next iteration of a concrete run, given what it returns. *)
Ltac run_iteration H :=
  erewrite rrt_loop_cons; cycle 1;
  [ simpl; lia | exact H | cbv beta iota ].

Lemma corridor_iteration_1 (limit : Z) :
  iteration (corridor_with limit) (5, 0)%Z [start_node (corridor_with limit)]
  = Some (Extended, corridor_1).
Proof.
  set (cfg := corridor_with limit).
  assert (sample_distance (sample_position (5, 0)%Z) (start_node cfg) = 5)
    as Hd by (apply norm_value; simpl; lra).
  replace corridor_1 with
    (attach [start_node cfg] 0 (candidate cfg (5, 0)%Z (start_node cfg)))
    by (rewrite (candidate_value _ _ _ 5 Hd); same_nodes).
  apply step_iteration, step_extended.
  - apply all_far_Forall. repeat constructor; far_enough.
  - apply first_nearest_intro; [easy| |]; repeat constructor; far_enough.
  - rewrite Hd. lra.
  - rewrite (candidate_value _ _ _ 5 Hd). no_collision.
Qed.

Lemma corridor_iteration_2 (limit : Z) :
  iteration (corridor_with limit) (5, 0)%Z corridor_1
  = Some (Extended, corridor_2).
Proof.
  set (cfg := corridor_with limit).
  set (mn := mkTreeNode (1, 0) (Some 0%nat) []).
  assert (sample_distance (sample_position (5, 0)%Z) mn = 4)
    as Hd by (apply norm_value; simpl; lra).
  replace corridor_2 with (attach corridor_1 1 (candidate cfg (5, 0)%Z mn))
    by (rewrite (candidate_value _ _ _ 4 Hd); same_nodes).
  apply step_iteration, step_extended.
  - apply all_far_Forall. repeat constructor; far_enough.
  - apply first_nearest_intro; [easy| |]; repeat constructor; far_enough.
  - rewrite Hd. lra.
  - rewrite (candidate_value _ _ _ 4 Hd). no_collision.
Qed.

Lemma corridor_iteration_3 :
  iteration corridor (5, 0)%Z corridor_2 = Some (Completed, corridor_3).
Proof.
  replace corridor_3 with (attach corridor_2 2 (goal_position corridor))
    by same_nodes.
  apply step_iteration.
  apply (step_completed _ _ _ 2%nat (mkTreeNode (2, 0) (Some 1%nat) []));
    [easy|far_enough|].
  intros [|[|j]] m Hj; [| |lia]; intros [= <-]; far_enough.
Qed.

Lemma corridor_run :
  run_rrt_2D corridor [(5, 0); (5, 0); (5, 0)]%Z = Finished true corridor_3.
Proof.
  unfold run_rrt_2D.
  run_iteration (corridor_iteration_1 1000).
  run_iteration (corridor_iteration_2 1000).
  run_iteration corridor_iteration_3.
  reflexivity.
Qed.

(** ** Atomic iterations *)

Lemma attach_commits_one (nl : list TreeNode) (p : nat) (v : Position) :
  (p < length nl)%nat -> commits_one nl p v (attach nl p v).
Proof.
  intros Hp. destruct (lookup_lt_is_Some_2 nl p Hp) as [pn Hpn].
  split; [apply length_attach|]. split; [apply attach_lookup_new|]. split.
  - exists pn. split; [easy|]. now apply attach_lookup_parent.
  - intros j Hne Hj. now apply attach_lookup_other.
Qed.

Lemma step_atomic (cfg : RunConfig) (sample : Z * Z) (nl nl' : list TreeNode)
  (o : Outcome) :
  step cfg sample nl o nl' ->
  match o with
  | Completed | Extended =>
      exists p v, (p < length nl)%nat /\ commits_one nl p v nl'
  | Collided | Stalled => nl' = nl
  end.
Proof.
  intros Hstep. inversion Hstep; subst; try reflexivity;
    repeat match goal with
      | H : first_nearest _ _ _ _ |- _ => destruct H as (_ & H & _)
      end;
    eexists _, _; (split; [|apply attach_commits_one]);
    eauto using lookup_lt_Some.
Qed.

(** C8. An iteration is atomic with respect to the tree.  On a node list
    that holds at least the root, the iteration returns normally and either
    commits exactly one node (the goal node or the steered candidate: a new
    last element, and one more child in its parent) or hands back the node
    list it was given.  The iterations whose candidate collides and those
    whose nearest distance is zero are of the second kind. *)
Theorem iteration_atomic (cfg : RunConfig) (sample : Z * Z)
  (nl : list TreeNode) :
  nl <> [] ->
  exists o nl',
    iteration cfg sample nl = Some (o, nl') /\
    step cfg sample nl o nl' /\
    match o with
    | Completed | Extended =>
        exists p v, (p < length nl)%nat /\ commits_one nl p v nl'
    | Collided | Stalled => nl' = nl
    end.
Proof.
  intros Hne.
  destruct (iteration_step cfg sample nl Hne) as (o & nl' & Hit & Hstep).
  exists o, nl'. split; [easy|]. split; [easy|].
  now apply (step_atomic cfg sample).
Qed.

Lemma iteration_atomic_witness :
  exists o nl',
    iteration corridor (5, 0)%Z corridor_1 = Some (o, nl') /\
    step corridor (5, 0)%Z corridor_1 o nl' /\
    match o with
    | Completed | Extended =>
        exists p v, (p < length corridor_1)%nat /\ commits_one corridor_1 p v nl'
    | Collided | Stalled => nl' = corridor_1
    end.
Proof. apply (iteration_atomic corridor (5, 0)%Z corridor_1). discriminate. Defined.

(** ** The tree stays a tree *)

(** C6. Whatever the configuration and the samples, and however far the
    run has got, the node list is a tree rooted at the start position: its
    first node is the root, at the start and without a parent; every other
    node has one parent, which stands earlier in the list; the children
    lists mirror the parent references; and every node is linked to the
    root through its ancestors. *)
Theorem tree_well_formed_throughout (cfg : RunConfig) (samples : list (Z * Z)) :
  exists nl,
    nodes_of (run_rrt_2D cfg samples) = Some nl /\
    well_formed (start_position cfg) nl /\
    forall i, (i < length nl)%nat ->
      exists k, (k <= i)%nat /\ ancestor nl k i = Some 0%nat.
Proof.
  pose proof (rrt_loop_invariant cfg
                (well_formed (start_position cfg))
                (well_formed (start_position cfg))
                (well_formed_nonempty _)
                (fun s nl nl' H => well_formed_step cfg s nl nl' _ H)
                (fun s nl nl' H => well_formed_step cfg s nl nl' _ H)
                samples [start_node cfg] (well_formed_start cfg)) as Hinv.
  unfold run_rrt_2D.
  destruct (rrt_loop _ _ _) as [[|] nl|nl|]; [| | |easy];
    exists nl; (split; [reflexivity|]);
    (split; [easy|]); now apply (well_formed_connected (start_position cfg)).
Qed.

(** ** The goal check inside the scan *)

(** C4. The scan stops at the first node it visits that lies strictly
    within the goal tolerance: whatever the sample, whatever the scan holds
    at that point and whatever nodes follow in the list, it breaks there.
    The iteration then commits a node at exactly the goal position as a
    child of that node, as the last element of the node list, and the run
    ends as completed. *)
Theorem goal_check_preempts_scan (cfg : RunConfig) (sample : Z * Z)
  (pre suf : list TreeNode) (n : TreeNode) :
  Forall (fun m => ~ near_goal cfg m) pre -> near_goal cfg n ->
  (forall s suf',
     scan cfg (sample_position sample) (pre ++ n :: suf') 0 s
     = GoalReached (length pre)) /\
  iteration cfg sample (pre ++ n :: suf)
  = Some (Completed, attach (pre ++ n :: suf) (length pre) (goal_position cfg)) /\
  commits_one (pre ++ n :: suf) (length pre) (goal_position cfg)
    (attach (pre ++ n :: suf) (length pre) (goal_position cfg)) /\
  (forall rest,
     (Z.of_nat (length (pre ++ n :: suf)) < node_limit cfg)%Z ->
     rrt_loop cfg (sample :: rest) (pre ++ n :: suf)
     = Finished true (attach (pre ++ n :: suf) (length pre) (goal_position cfg))).
Proof.
  intros Hpre Hn.
  pose proof (iteration_goal cfg sample pre suf n Hpre Hn) as Hit.
  split; [|split; [exact Hit|split]].
  - intros s suf'. now rewrite (scan_goal_first cfg _ pre suf' n 0 s Hpre Hn).
  - apply attach_commits_one. rewrite length_app. simpl. lia.
  - intros rest Hlt. now rewrite (rrt_loop_cons _ _ _ _ _ _ Hlt Hit).
Qed.

Lemma goal_check_preempts_scan_witness :
  iteration corridor (-5, 0)%Z corridor_3
  = Some (Completed, attach corridor_3 2 (goal_position corridor)).
Proof.
  apply (goal_check_preempts_scan corridor (-5, 0)%Z
           [mkTreeNode (0, 0) None [1%nat];
            mkTreeNode (1, 0) (Some 0%nat) [2%nat]]
           [mkTreeNode (2, 0) (Some 2%nat) []]
           (mkTreeNode (2, 0) (Some 1%nat) [3%nat])).
  - repeat constructor; far_enough.
  - far_enough.
Defined.

(** ** The step size *)

(** A step of length [st] along the direction of [(x, y)], from [(a, b)]. *)
Lemma unit_step_length (x y a b d st : R) :
  d <> 0 -> d * d = x * x + y * y ->
  (a + x / d * st - a) * (a + x / d * st - a)
  + (b + y / d * st - b) * (b + y / d * st - b) = st * st.
Proof.
  intros Hnz Hsq.
  transitivity (st * st * ((x * x + y * y) / (d * d))).
  - field. exact Hnz.
  - rewrite <- Hsq. field. exact Hnz.
Qed.

Lemma candidate_distance (cfg : RunConfig) (sample : Z * Z) (mn : TreeNode) :
  sample_distance (sample_position sample) mn <> 0 ->
  euclid (candidate cfg sample mn) (val mn) = Rabs (step_size cfg).
Proof.
  intros Hnz. rewrite <- norm_vsub. apply norm_value; [apply Rabs_pos|].
  replace (Rabs (step_size cfg) * Rabs (step_size cfg))
    with (step_size cfg * step_size cfg)
    by (unfold Rabs; destruct (Rcase_abs _); ring).
  symmetry. apply unit_step_length; [exact Hnz|]. apply norm_square.
Qed.

(** ** The invariants along a run *)

Lemma extension_ok_attach (cfg : RunConfig) (nl : list TreeNode) (m : nat)
  (v : Position) (d : R) (n : TreeNode) :
  extension_ok cfg nl d n -> extension_ok cfg (attach nl m v) d n.
Proof.
  intros [Hfree (p & pn & Hp & Hpn & Hd)]. split; [easy|].
  destruct (attach_lookup_old nl m v p pn Hpn) as (pn' & Hpn' & Hval & _).
  exists p, pn'. rewrite Hval. now repeat split.
Qed.

Lemma grown_start (cfg : RunConfig) : grown cfg [start_node cfg].
Proof.
  split; [apply well_formed_start|].
  intros [|[|i]] n Hpos Hn; [lia|discriminate|discriminate].
Qed.

Lemma grown_extended (cfg : RunConfig) (sample : Z * Z) (nl nl' : list TreeNode) :
  grown cfg nl -> step cfg sample nl Extended nl' -> grown cfg nl'.
Proof.
  intros [Hwf Hext] Hstep.
  split; [eapply well_formed_step; eauto|].
  inversion Hstep as [|m mn Hfar Hnear Hnz Hfree| |]; subst.
  destruct Hnear as (_ & Hm & _).
  intros i n Hpos Hi.
  apply attach_lookup_inv in Hi as [[-> ->]|(n0 & Hn0 & Hval & Hpar & _)].
  - split; [easy|].
    destruct (attach_lookup_old nl m (candidate cfg sample mn) m mn Hm)
      as (mn' & Hmn' & Hval & _).
    exists m, mn'. rewrite Hval. split; [easy|]. split; [easy|].
    now apply candidate_distance.
  - destruct (extension_ok_attach cfg nl m (candidate cfg sample mn) _ n0
                (Hext i n0 Hpos Hn0)) as [Hfree' (p & pn & Hp & Hpn & Hd)].
    split; [congruence|]. exists p, pn. rewrite Hval, Hpar. now repeat split.
Qed.

Lemma grown_completed (cfg : RunConfig) (sample : Z * Z) (nl nl' : list TreeNode) :
  grown cfg nl -> step cfg sample nl Completed nl' -> goal_attached cfg nl'.
Proof.
  intros Hg Hstep. inversion Hstep; subst. now exists nl, i, n.
Qed.

(** What a run holds, by the way it ended. *)
Lemma run_grown (cfg : RunConfig) (samples : list (Z * Z)) :
  match run_rrt_2D cfg samples with
  | Finished true nl => goal_attached cfg nl
  | Finished false nl => grown cfg nl
  | Pending nl => grown cfg nl
  | Crashed => False
  end.
Proof.
  apply (rrt_loop_invariant cfg (grown cfg) (goal_attached cfg)).
  - intros nl [Hwf _]. eapply well_formed_nonempty; eauto.
  - apply grown_extended.
  - apply grown_completed.
  - apply grown_start.
Qed.

Lemma goal_attached_well_formed (cfg : RunConfig) (nl : list TreeNode) :
  goal_attached cfg nl -> well_formed (start_position cfg) nl.
Proof.
  intros (nl0 & i & n & [Hwf _] & Hi & _ & ->).
  apply well_formed_attach; eauto using lookup_lt_Some.
Qed.

(** In a completed tree the goal node is the last one, and every node
    between the root and the goal node was committed by an extension. *)
Lemma goal_attached_last (cfg : RunConfig) (nl : list TreeNode) :
  goal_attached cfg nl ->
  exists i n, (i < length nl - 1)%nat /\ near_goal cfg n /\
              nl !! i = Some (add_child (length nl - 1) n) /\
              last nl = Some (new_TreeNode (goal_position cfg) (Some i)).
Proof.
  intros (nl0 & i & n & _ & Hi & Hnear & ->).
  exists i, n. rewrite length_attach. simpl. rewrite Nat.sub_0_r.
  split; [eapply lookup_lt_Some; eauto|]. split; [easy|].
  split; [now apply attach_lookup_parent|]. apply last_snoc.
Qed.

Lemma goal_attached_inner (cfg : RunConfig) (nl : list TreeNode) :
  goal_attached cfg nl ->
  forall j n, (0 < j)%nat -> (S j < length nl)%nat -> nl !! j = Some n ->
    extension_ok cfg nl (Rabs (step_size cfg)) n.
Proof.
  intros (nl0 & i & g & [_ Hext] & Hi & _ & ->) j n Hpos Hj Hn.
  rewrite length_attach in Hj.
  apply attach_lookup_inv in Hn as [[-> _]|(n0 & Hn0 & Hval & Hpar & _)]; [lia|].
  destruct (extension_ok_attach cfg nl0 i (goal_position cfg) _ n0
              (Hext j n0 Hpos Hn0)) as [Hfree (p & pn & Hp & Hpn & Hd)].
  split; [congruence|]. exists p, pn. rewrite Hval, Hpar. now repeat split.
Qed.

(** C7. With a step size that is not negative, every node that is neither
    the root nor the goal node lies at distance exactly [step_size] from
    its parent, at any point of any run; the goal node, the last node of a
    completed run, lies exactly at the goal position instead.  No candidate
    is formed when the nearest distance is zero: such an iteration hands
    the node list back. *)
Theorem step_size_exact (cfg : RunConfig) (samples : list (Z * Z)) :
  0 <= step_size cfg ->
  match run_rrt_2D cfg samples with
  | Finished true nl =>
      (exists g, last nl = Some g /\ val g = goal_position cfg) /\
      forall i n, (0 < i)%nat -> (S i < length nl)%nat -> nl !! i = Some n ->
        parent_at_distance nl (step_size cfg) n
  | Finished false nl | Pending nl =>
      forall i n, (0 < i)%nat -> nl !! i = Some n ->
        parent_at_distance nl (step_size cfg) n
  | Crashed => False
  end /\
  (forall sample nl m mn,
     all_far cfg nl -> first_nearest nl sample m mn ->
     sample_distance (sample_position sample) mn = 0 ->
     iteration cfg sample nl = Some (Stalled, nl)).
Proof.
  intros Hstep. split.
  - pose proof (run_grown cfg samples) as Hrun.
    rewrite <- (Rabs_pos_eq (step_size cfg) Hstep).
    destruct (run_rrt_2D cfg samples) as [[|] nl|nl|]; [| | |easy].
    + split.
      * destruct (goal_attached_last cfg nl Hrun) as (i & n & _ & _ & _ & Hlast).
        eexists. split; [exact Hlast|reflexivity].
      * intros i n Hpos Hi Hn.
        now apply (goal_attached_inner cfg nl Hrun i n).
    + intros i n Hpos Hn. now apply (proj2 Hrun i n).
    + intros i n Hpos Hn. now apply (proj2 Hrun i n).
  - intros sample nl m mn Hfar Hnear Hz.
    apply step_iteration. now apply (step_stalled _ _ _ m mn).
Qed.

Lemma step_size_exact_witness :
  0 <= step_size corridor /\
  ((exists g, last corridor_3 = Some g /\ val g = goal_position corridor) /\
   forall i n, (0 < i)%nat -> (S i < length corridor_3)%nat ->
     corridor_3 !! i = Some n ->
     parent_at_distance corridor_3 (step_size corridor) n).
Proof.
  assert (0 <= step_size corridor) as Hstep by (simpl; lra).
  split; [exact Hstep|].
  pose proof (step_size_exact corridor [(5, 0); (5, 0); (5, 0)]%Z Hstep) as H.
  rewrite corridor_run in H. apply H.
Defined.

(** ** Collisions *)

(** C3, as amended.  In a completed run every node that is neither the
    root nor the goal node clears every obstacle of the configuration.  The
    goal node is the last node and lies at the goal position; no collision
    test is applied to it. *)
Theorem extensions_collision_free (cfg : RunConfig) (samples : list (Z * Z))
  (nl : list TreeNode) :
  run_rrt_2D cfg samples = Finished true nl ->
  (forall i n, (0 < i)%nat -> (S i < length nl)%nat -> nl !! i = Some n ->
     forall o, In o (obstacle_list cfg) -> collides o (val n) = false) /\
  (exists g, last nl = Some g /\ val g = goal_position cfg).
Proof.
  intros Hrun. pose proof (run_grown cfg samples) as Hinv.
  rewrite Hrun in Hinv. split.
  - intros i n Hpos Hi Hn.
    destruct (goal_attached_inner cfg nl Hinv i n Hpos Hi Hn) as [Hfree _].
    now apply collision_false.
  - destruct (goal_attached_last cfg nl Hinv) as (i & n & _ & _ & _ & Hlast).
    eexists. split; [exact Hlast|reflexivity].
Qed.

Lemma extensions_collision_free_witness :
  (forall i n, (0 < i)%nat -> (S i < length corridor_3)%nat ->
     corridor_3 !! i = Some n ->
     forall o, In o (obstacle_list corridor) -> collides o (val n) = false) /\
  (exists g, last corridor_3 = Some g /\ val g = goal_position corridor).
Proof.
  apply (extensions_collision_free corridor [(5, 0); (5, 0); (5, 0)]%Z).
  exact corridor_run.
Defined.

Lemma blocked_goal_run :
  run_rrt_2D blocked_goal [(5, 0)%Z]
  = Finished true [mkTreeNode (0, 0) None [1%nat];
                   mkTreeNode (1 / 4, 0) (Some 0%nat) []].
Proof.
  unfold run_rrt_2D.
  run_iteration (iteration_goal blocked_goal (5, 0)%Z [] []
                   (start_node blocked_goal) (Forall_nil_2 _)
                   ltac:(far_enough)).
  reflexivity.
Qed.

(** C3, counterexample.  The goal node is a non-root node of a completed
    run, and it lies inside the obstacle that covers the goal. *)
Lemma goal_node_may_collide :
  exists nl n o,
    run_rrt_2D blocked_goal [(5, 0)%Z] = Finished true nl /\
    nl !! 1%nat = Some n /\ In o (obstacle_list blocked_goal) /\
    collides o (val n) = true.
Proof.
  eexists _, _, (Circle (1 / 4) 0 (1 / 10)).
  split; [exact blocked_goal_run|]. split; [reflexivity|]. split; [now left|].
  apply collides_circle. rewrite <- norm_vsub. far_enough.
Qed.

(** ** Path extraction *)

Lemma walk_climbs (nl : list TreeNode) (fuel c : nat)
  (poses : list (nat * Position)) :
  walk fuel nl c = Some poses -> climbs nl c poses.
Proof.
  revert c poses. induction fuel as [|fuel IH]; intros c poses; simpl;
    [discriminate|].
  destruct (nl !! c) as [node|] eqn:Hc; [|discriminate].
  destruct (parent node) as [p|] eqn:Hp.
  - destruct (walk fuel nl p) as [rest|] eqn:Hw; [|discriminate].
    intros [= <-]. eapply climbs_up; eauto.
  - intros [= <-]. eapply climbs_top; eauto.
Qed.

(** On a well-formed list the walk ends before its fuel does. *)
Lemma walk_total (start : Position) (nl : list TreeNode) :
  well_formed start nl ->
  forall c fuel, (c < length nl)%nat -> (c < fuel)%nat ->
    exists poses, walk fuel nl c = Some poses.
Proof.
  intros Hwf c. induction c as [c IH] using lt_wf_ind. intros fuel Hc Hfuel.
  destruct fuel as [|fuel]; [lia|]. simpl.
  destruct (lookup_lt_is_Some_2 nl c Hc) as [node Hnode]. rewrite Hnode.
  destruct (parent node) as [p|] eqn:Hp; [|now eexists].
  assert (parent_of nl c = Some p) as Hpc by (unfold parent_of; now rewrite Hnode).
  apply (parent_of_earlier start) in Hpc as [Hlt _]; [|easy].
  destruct (IH p Hlt fuel) as [rest ->]; [lia|lia|]. now eexists.
Qed.

Lemma climbs_head (nl : list TreeNode) (c a : nat) (va : Position)
  (poses : list (nat * Position)) :
  climbs nl c ((a, va) :: poses) ->
  a = c /\ exists node p, nl !! c = Some node /\ parent node = Some p /\
                          va = val node /\ climbs nl p poses.
Proof. intros H. inversion H; subst. split; [easy|]. now exists node, p. Qed.

(** Consecutive poses come from a node and its parent. *)
Lemma climbs_consecutive (nl : list TreeNode) (c : nat)
  (poses : list (nat * Position)) :
  climbs nl c poses ->
  forall k a va b vb,
    poses !! k = Some (a, va) -> poses !! S k = Some (b, vb) ->
    exists na nb, nl !! a = Some na /\ nl !! b = Some nb /\
                  parent na = Some b /\ va = val na /\ vb = val nb.
Proof.
  induction 1 as [|c node p poses Hc Hp Hclimb IH]; intros k a va b vb Ha Hb;
    [discriminate|].
  destruct k as [|k]; [|now apply (IH k)].
  simpl in Ha, Hb. injection Ha as <- <-.
  destruct poses as [|[b' vb'] rest]; [discriminate|].
  simpl in Hb. injection Hb as -> ->.
  apply climbs_head in Hclimb as (-> & nb & q & Hnb & _ & -> & _).
  now exists node, nb.
Qed.

(** Every pose comes from a node that has a parent. *)
Lemma climbs_pose (nl : list TreeNode) (c : nat) (poses : list (nat * Position)) :
  climbs nl c poses ->
  forall k a va, poses !! k = Some (a, va) ->
    exists na q, nl !! a = Some na /\ parent na = Some q /\ va = val na.
Proof.
  induction 1 as [|c node p poses Hc Hp Hclimb IH]; intros k a va Ha;
    [discriminate|].
  destruct k as [|k]; [|now apply (IH k)].
  simpl in Ha. injection Ha as <- <-. now exists node, p.
Qed.

(** The last pose comes from a child of the node the walk ends at. *)
Lemma climbs_last (nl : list TreeNode) (c : nat) (poses : list (nat * Position)) :
  climbs nl c poses ->
  forall a va, last poses = Some (a, va) ->
    exists na top t, nl !! a = Some na /\ parent na = Some t /\
                     nl !! t = Some top /\ parent top = None.
Proof.
  induction 1 as [|c node p poses Hc Hp Hclimb IH]; intros a va Hlast;
    [discriminate|].
  destruct poses as [|pose rest].
  - simpl in Hlast. injection Hlast as <- <-.
    inversion Hclimb; subst. now exists node, top, p.
  - apply (IH a va). exact Hlast.
Qed.

(** In a well-formed list only the root has no parent. *)
Lemma parentless_is_root (start : Position) (nl : list TreeNode) (t : nat)
  (top : TreeNode) :
  well_formed start nl -> nl !! t = Some top -> parent top = None -> t = 0%nat.
Proof.
  intros Hwf Ht Hnone. destruct t as [|t]; [easy|].
  destruct (wf_parent _ _ Hwf _ _ Ht) as (p & Hp & _); [lia|]. congruence.
Qed.

(** The path of a completed tree. *)
Lemma goal_attached_path (cfg : RunConfig) (nl : list TreeNode) :
  goal_attached cfg nl ->
  exists poses,
    path_nodes nl = Some ((length nl - 1, goal_position cfg)%nat :: poses) /\
    climbs nl (length nl - 1) ((length nl - 1, goal_position cfg)%nat :: poses).
Proof.
  intros Hg. pose proof (goal_attached_well_formed cfg nl Hg) as Hwf.
  destruct (goal_attached_last cfg nl Hg) as (i & n & Hi & _ & _ & Hlast).
  assert (0 < length nl)%nat as Hlen by lia.
  destruct (walk_total _ nl Hwf (length nl - 1) (length nl)) as [poses Hw];
    [lia|lia|].
  pose proof (walk_climbs _ _ _ _ Hw) as Hclimb.
  rewrite last_lookup in Hlast.
  replace (pred (length nl)) with (length nl - 1)%nat in Hlast by lia.
  inversion Hclimb as [c top Hc Hnone|c node p rest Hc Hp Hrest]; subst.
  - rewrite Hlast in Hc. injection Hc as <-. discriminate.
  - rewrite Hlast in Hc. injection Hc as <-.
    exists rest. split; [|exact Hclimb].
    unfold path_nodes. destruct nl; [simpl in Hlen; lia|]. now rewrite Hw.
Qed.

(** A node is listed among the children of its parent. *)
Lemma child_listed (start : Position) (nl : list TreeNode) (a b : nat)
  (na nb : TreeNode) :
  well_formed start nl -> nl !! a = Some na -> nl !! b = Some nb ->
  parent na = Some b -> a ∈ children nb.
Proof.
  intros Hwf Ha Hb Hp. rewrite (wf_children _ _ Hwf b nb Hb).
  apply list_elem_of_filter. split.
  - unfold parent_of. now rewrite Ha.
  - apply elem_of_seq. apply lookup_lt_Some in Ha. lia.
Qed.

(** C2, as amended.  For a completed run the path extraction returns a
    sequence that starts with the goal position, taken from the last node
    of the list; any two consecutive elements are the positions of a node
    and of its parent, the node being listed among that parent's children;
    the sequence ends with a child of the root.  The walk stops at the root
    without emitting it: no element of the path comes from the root. *)
Theorem path_from_goal_to_child_of_root (cfg : RunConfig)
  (samples : list (Z * Z)) (nl : list TreeNode) :
  run_rrt_2D cfg samples = Finished true nl ->
  exists poses,
    path_nodes nl = Some poses /\
    publish_path nl = Some (map snd poses) /\
    head poses = Some ((length nl - 1)%nat, goal_position cfg) /\
    (forall k a va b vb,
       poses !! k = Some (a, va) -> poses !! S k = Some (b, vb) ->
       exists na nb, nl !! a = Some na /\ nl !! b = Some nb /\
                     parent na = Some b /\ a ∈ children nb /\
                     va = val na /\ vb = val nb) /\
    (exists a va na, last poses = Some (a, va) /\ nl !! a = Some na /\
                     parent na = Some 0%nat /\ va = val na) /\
    (forall k a va, poses !! k = Some (a, va) -> a <> 0%nat).
Proof.
  intros Hrun. pose proof (run_grown cfg samples) as Hg. rewrite Hrun in Hg.
  pose proof (goal_attached_well_formed cfg nl Hg) as Hwf.
  destruct (goal_attached_path cfg nl Hg) as (rest & Hpath & Hclimb).
  set (poses := ((length nl - 1)%nat, goal_position cfg) :: rest) in *.
  exists poses. split; [exact Hpath|]. split.
  { unfold publish_path. now rewrite Hpath. }
  split; [reflexivity|]. split; [|split].
  - intros k a va b vb Ha Hb.
    destruct (climbs_consecutive nl _ poses Hclimb k a va b vb Ha Hb)
      as (na & nb & Hna & Hnb & Hp & Hva & Hvb).
    exists na, nb. repeat split; auto.
    now apply (child_listed (start_position cfg) nl a b na nb).
  - destruct (last poses) as [[a va]|] eqn:Hlast;
      [|apply last_None in Hlast; discriminate].
    destruct (climbs_last nl _ poses Hclimb a va Hlast)
      as (na & top & t & Hna & Hp & Ht & Hnone).
    assert (t = 0%nat) as -> by now apply (parentless_is_root _ nl t top Hwf).
    pose proof (last_Some_elem_of _ _ Hlast) as Hin.
    apply list_elem_of_lookup in Hin as [k Hk].
    destruct (climbs_pose nl _ poses Hclimb k a va Hk) as (na' & q & Hna' & _ & Hva).
    exists a, va, na. repeat split; auto. congruence.
  - intros k a va Hk ->.
    destruct (climbs_pose nl _ poses Hclimb k 0%nat va Hk) as (na & q & Hna & Hq & _).
    destruct (wf_root _ _ Hwf) as (root & H0 & Hnone & _). congruence.
Qed.

Lemma path_from_goal_to_child_of_root_witness :
  exists poses,
    path_nodes corridor_3 = Some poses /\
    publish_path corridor_3 = Some (map snd poses) /\
    head poses = Some ((length corridor_3 - 1)%nat, goal_position corridor) /\
    (forall k a va b vb,
       poses !! k = Some (a, va) -> poses !! S k = Some (b, vb) ->
       exists na nb, corridor_3 !! a = Some na /\ corridor_3 !! b = Some nb /\
                     parent na = Some b /\ a ∈ children nb /\
                     va = val na /\ vb = val nb) /\
    (exists a va na, last poses = Some (a, va) /\ corridor_3 !! a = Some na /\
                     parent na = Some 0%nat /\ va = val na) /\
    (forall k a va, poses !! k = Some (a, va) -> a <> 0%nat).
Proof.
  apply (path_from_goal_to_child_of_root corridor [(5, 0); (5, 0); (5, 0)]%Z).
  exact corridor_run.
Defined.

(** C2, counterexample.  The corridor run completes with the path
    [(2,0); (2,0); (1,0)]: its last element is the child of the root, not
    the start position (0,0). *)
Lemma path_omits_start :
  exists nl path,
    run_rrt_2D corridor [(5, 0); (5, 0); (5, 0)]%Z = Finished true nl /\
    publish_path nl = Some path /\
    path = [(2, 0); (2, 0); (1, 0)] /\
    last path <> Some (start_position corridor).
Proof.
  exists corridor_3, [(2, 0); (2, 0); (1, 0)].
  split; [exact corridor_run|]. split; [reflexivity|]. split; [reflexivity|].
  simpl. intros [= H]. lra.
Qed.

(** C9.  In a completed run the goal node, a node at exactly the goal
    position, is the last element of the node list, and the path extraction,
    which starts from the last element, starts from it: the first pose of
    the path is the goal position, taken from the last index. *)
Theorem goal_node_is_last (cfg : RunConfig) (samples : list (Z * Z))
  (nl : list TreeNode) :
  run_rrt_2D cfg samples = Finished true nl ->
  exists g p rest,
    last nl = Some g /\ nl !! (length nl - 1)%nat = Some g /\
    val g = goal_position cfg /\ parent g = Some p /\ children g = [] /\
    path_nodes nl = Some (((length nl - 1)%nat, goal_position cfg) :: rest) /\
    publish_path nl = Some (goal_position cfg :: map snd rest).
Proof.
  intros Hrun. pose proof (run_grown cfg samples) as Hg. rewrite Hrun in Hg.
  destruct (goal_attached_last cfg nl Hg) as (i & n & _ & _ & _ & Hlast).
  destruct (goal_attached_path cfg nl Hg) as (rest & Hpath & _).
  exists (new_TreeNode (goal_position cfg) (Some i)), i, rest.
  split; [exact Hlast|]. split.
  { rewrite last_lookup in Hlast.
    now replace (length nl - 1)%nat with (pred (length nl)) by lia. }
  repeat (split; [reflexivity|]). split; [exact Hpath|].
  unfold publish_path. now rewrite Hpath.
Qed.

Lemma goal_node_is_last_witness :
  exists g p rest,
    last corridor_3 = Some g /\
    corridor_3 !! (length corridor_3 - 1)%nat = Some g /\
    val g = goal_position corridor /\ parent g = Some p /\ children g = [] /\
    path_nodes corridor_3
    = Some (((length corridor_3 - 1)%nat, goal_position corridor) :: rest) /\
    publish_path corridor_3 = Some (goal_position corridor :: map snd rest).
Proof.
  apply (goal_node_is_last corridor [(5, 0); (5, 0); (5, 0)]%Z).
  exact corridor_run.
Defined.

(** ** Termination *)

Lemma idle_cons (cfg : RunConfig) (sample : Z * Z) (rest : list (Z * Z))
  (nl nl' : list TreeNode) (o : Outcome) :
  (Z.of_nat (length nl) < node_limit cfg)%Z ->
  iteration cfg sample nl = Some (o, nl') ->
  idle cfg (sample :: rest) nl =
  match o with
  | Completed => 0%nat
  | Extended => idle cfg rest nl'
  | Collided | Stalled => S (idle cfg rest nl')
  end.
Proof.
  intros Hlt Hit. simpl. rewrite Hit.
  apply Z.ltb_lt in Hlt. rewrite Hlt. now destruct o.
Qed.

Lemma idle_nil (cfg : RunConfig) (nl : list TreeNode) : idle cfg [] nl = 0%nat.
Proof. simpl. now destruct (_ <? _)%Z. Qed.

Lemma attach_nonempty (nl : list TreeNode) (i : nat) (v : Position) :
  attach nl i v <> [].
Proof.
  intros H. apply (f_equal length) in H. rewrite length_attach in H.
  discriminate.
Qed.

Lemma step_nonempty (cfg : RunConfig) (sample : Z * Z) (nl nl' : list TreeNode)
  (o : Outcome) :
  nl <> [] -> step cfg sample nl o nl' -> nl' <> [].
Proof.
  intros Hne Hstep. inversion Hstep; subst; auto using attach_nonempty.
Qed.

Lemma step_length (cfg : RunConfig) (sample : Z * Z) (nl nl' : list TreeNode)
  (o : Outcome) :
  step cfg sample nl o nl' ->
  length nl' = match o with
               | Completed | Extended => S (length nl)
               | Collided | Stalled => length nl
               end.
Proof. intros Hstep. inversion Hstep; subst; auto using length_attach. Qed.

(** The loop is left once the samples cover the nodes still allowed and
    the iterations that add none. *)
Lemma rrt_loop_finishes (cfg : RunConfig) (samples : list (Z * Z)) :
  forall nl, nl <> [] ->
    (Z.to_nat (node_limit cfg - Z.of_nat (length nl)) + idle cfg samples nl
     <= length samples)%nat ->
    exists b nl', rrt_loop cfg samples nl = Finished b nl'.
Proof.
  induction samples as [|sample rest IH]; intros nl Hne Hlen.
  - rewrite idle_nil in Hlen. simpl in Hlen.
    rewrite rrt_loop_full by lia. now eexists _, _.
  - destruct (Z_lt_le_dec (Z.of_nat (length nl)) (node_limit cfg)) as [Hlt|Hge];
      [|rewrite rrt_loop_full by lia; now eexists _, _].
    destruct (iteration_step cfg sample nl Hne) as (o & nl' & Hit & Hstep).
    rewrite (rrt_loop_cons _ _ _ _ _ _ Hlt Hit).
    rewrite (idle_cons _ _ _ _ _ _ Hlt Hit) in Hlen.
    pose proof (step_length _ _ _ _ _ Hstep) as Hl.
    pose proof (step_nonempty _ _ _ _ _ Hne Hstep) as Hne'.
    simpl in Hlen.
    destruct o; [now eexists _, _| | |]; apply IH; auto; rewrite Hl; lia.
Qed.

(** The node list never outgrows the node limit. *)
Lemma rrt_loop_bounded (cfg : RunConfig) (samples : list (Z * Z)) :
  forall nl, nl <> [] ->
    (Z.of_nat (length nl) <= Z.max 1 (node_limit cfg))%Z ->
    exists nl', nodes_of (rrt_loop cfg samples nl) = Some nl' /\
                (Z.of_nat (length nl') <= Z.max 1 (node_limit cfg))%Z.
Proof.
  induction samples as [|sample rest IH]; intros nl Hne Hlen;
    destruct (Z_lt_le_dec (Z.of_nat (length nl)) (node_limit cfg)) as [Hlt|Hge];
    try (rewrite rrt_loop_full by lia; now exists nl).
  - rewrite rrt_loop_nil by lia. now exists nl.
  - destruct (iteration_step cfg sample nl Hne) as (o & nl' & Hit & Hstep).
    rewrite (rrt_loop_cons _ _ _ _ _ _ Hlt Hit).
    pose proof (step_length _ _ _ _ _ Hstep) as Hl.
    pose proof (step_nonempty _ _ _ _ _ Hne Hstep) as Hne'.
    destruct o; [exists nl'; split; [easy|]; rewrite Hl; lia| | |];
      apply IH; auto; rewrite Hl; lia.
Qed.

(** While every iteration is discarded the loop is not left. *)
Lemma rrt_loop_discarding (cfg : RunConfig) (samples : list (Z * Z))
  (nl : list TreeNode) :
  (Z.of_nat (length nl) < node_limit cfg)%Z ->
  Forall (fun sample => discarded cfg sample nl) samples ->
  rrt_loop cfg samples nl = Pending nl.
Proof.
  intros Hlt. induction 1 as [|sample rest [Hit|Hit] _ IH].
  - now apply rrt_loop_nil.
  - now rewrite (rrt_loop_cons _ _ _ _ _ _ Hlt Hit).
  - now rewrite (rrt_loop_cons _ _ _ _ _ _ Hlt Hit).
Qed.

(** C1, as amended.  The loop is bounded by the number of nodes, not by the
    number of iterations.  A run is over, completed or with the node limit
    reached, as soon as it has been given [node_limit - 1] samples on top of
    those of its iterations that added no node, and it then holds at most
    [node_limit] nodes (one when the limit is lower).  Iterations whose
    candidate collides or whose nearest distance is zero are not counted:
    while every iteration is of that kind, as with an obstacle over the
    whole map, and the limit is above one, the loop is never left. *)
Theorem run_bounded_by_nodes :
  (forall cfg samples,
     (Z.to_nat (node_limit cfg - 1) + idle cfg samples [start_node cfg]
      <= length samples)%nat ->
     exists b nl, run_rrt_2D cfg samples = Finished b nl /\
                  (Z.of_nat (length nl) <= Z.max 1 (node_limit cfg))%Z) /\
  (forall cfg samples,
     (1 < node_limit cfg)%Z ->
     Forall (fun sample => discarded cfg sample [start_node cfg]) samples ->
     run_rrt_2D cfg samples = Pending [start_node cfg]).
Proof.
  split.
  - intros cfg samples Hlen. unfold run_rrt_2D.
    destruct (rrt_loop_finishes cfg samples [start_node cfg]) as (b & nl & Hrun);
      [easy|exact Hlen|].
    destruct (rrt_loop_bounded cfg samples [start_node cfg]) as (nl' & Hn & Hb);
      [easy|simpl; lia|].
    rewrite Hrun in Hn. injection Hn as <-. now exists b, nl.
  - intros cfg samples Hlimit Hall. now apply rrt_loop_discarding.
Qed.

(** One step of unit length from (3,0) stays well inside the disc of
    radius 100 around the origin. *)
Lemma unit_step_inside (x y d : R) :
  d <> 0 -> d * d = x * x + y * y ->
  (3 + x / d * 1 - 0) * (3 + x / d * 1 - 0)
  + (0 + y / d * 1 - 0) * (0 + y / d * 1 - 0) < 100 * 100.
Proof.
  intros Hnz Hsq.
  assert (x / d * (x / d) + y / d * (y / d) = 1) as Hunit.
  { transitivity ((x * x + y * y) / (d * d)); [field; exact Hnz|].
    rewrite <- Hsq. field. exact Hnz. }
  set (u := x / d) in *. set (v := y / d) in *. nra.
Qed.

(** Under the wall every iteration from the start node is discarded,
    whatever the sample. *)
Lemma walled_discards (sample : Z * Z) :
  discarded walled sample [start_node walled].
Proof.
  destruct (iteration_step walled sample [start_node walled])
    as (o & nl' & Hit & Hstep); [easy|].
  inversion Hstep as [i n Hi Hnear _|m mn _ Hm Hnz Hfree|m mn _ _ _ _|m mn _ _ _];
    subst.
  - exfalso. destruct i as [|i]; [|now destruct i].
    injection Hi as <-. revert Hnear. far_enough.
  - exfalso. destruct Hm as (_ & Hm & _).
    destruct m as [|m]; [|now destruct m]. injection Hm as <-.
    assert (collides (Circle 0 0 100) (candidate walled sample (start_node walled))
            = true) as Hhit.
    { apply collides_circle. rewrite <- norm_vsub. apply norm_lt; [lra|].
      apply unit_step_inside; [exact Hnz|apply norm_square]. }
    simpl in Hfree. unfold collides in Hhit. rewrite Hhit in Hfree.
    discriminate.
  - now left.
  - now right.
Qed.

(** C1, counterexample.  Scenario B: with the wall over the whole map and
    a node limit of five, the run never leaves the loop, whatever samples
    it draws and however many: no run is ever finished. *)
Lemma walled_never_terminates :
  (forall samples, run_rrt_2D walled samples = Pending [start_node walled]) /\
  ~ (exists samples b nl, run_rrt_2D walled samples = Finished b nl).
Proof.
  assert (forall samples,
            run_rrt_2D walled samples = Pending [start_node walled]) as Hrun.
  { intros samples. apply rrt_loop_discarding; [simpl; lia|].
    apply Forall_forall. intros sample _. apply walled_discards. }
  split; [exact Hrun|]. intros (samples & b & nl & Hfin).
  rewrite Hrun in Hfin. discriminate.
Qed.

Lemma run_bounded_by_nodes_witness :
  (exists b nl,
     run_rrt_2D (corridor_with 3) [(5, 0); (5, 0)]%Z = Finished b nl /\
     (Z.of_nat (length nl) <= Z.max 1 (node_limit (corridor_with 3)))%Z) /\
  run_rrt_2D walled [(5, 0); (3, 0)]%Z = Pending [start_node walled].
Proof.
  split.
  - apply (proj1 run_bounded_by_nodes (corridor_with 3)).
    erewrite idle_cons; cycle 1;
      [simpl; lia | exact (corridor_iteration_1 3) | cbv beta iota].
    erewrite idle_cons; cycle 1;
      [simpl; lia | exact (corridor_iteration_2 3) | cbv beta iota].
    rewrite idle_nil. simpl. lia.
  - apply (proj2 run_bounded_by_nodes walled); [simpl; lia|].
    apply Forall_forall. intros sample _. apply walled_discards.
Defined.

(** ** The map bounds *)

Lemma edge_iteration :
  iteration edge (-10, 0)%Z [start_node edge]
  = Some (Extended, [mkTreeNode (- (99 / 10), 0) None [1%nat];
                     mkTreeNode (- (101 / 10), 0) (Some 0%nat) []]).
Proof.
  assert (sample_distance (sample_position (-10, 0)%Z) (start_node edge) = 1 / 10)
    as Hd by (apply norm_value; simpl; lra).
  match goal with
  | |- _ = Some (_, ?nl) =>
      replace nl with
        (attach [start_node edge] 0
           (candidate edge (-10, 0)%Z (start_node edge)))
        by (rewrite (candidate_value _ _ _ (1 / 10) Hd); same_nodes)
  end.
  apply step_iteration, step_extended.
  - apply all_far_Forall. repeat constructor; far_enough.
  - apply first_nearest_intro; [easy| |]; repeat constructor; far_enough.
  - rewrite Hd. lra.
  - rewrite (candidate_value _ _ _ (1 / 10) Hd). no_collision.
Qed.

(** C10.  Node positions are neither clamped nor checked against the map.
    The steered candidate, the nearest node's position plus the unit
    displacement times the step size, is committed as it is whenever it
    clears the obstacles: the map bounds are no condition of that.  So a
    node can lie strictly outside the sampled rectangle: with the start and
    the goal inside the map and a sample the generator can draw, the
    candidate steered from the start overshoots the sample, clears the
    obstacles and is committed outside the map, in a run that has not
    attached any goal node. *)
Theorem nodes_escape_the_map :
  (forall cfg sample nl m mn,
     all_far cfg nl -> first_nearest nl sample m mn ->
     sample_distance (sample_position sample) mn <> 0 ->
     collision (obstacle_list cfg) (candidate cfg sample mn) = false ->
     exists nl',
       iteration cfg sample nl = Some (Extended, nl') /\
       nl' !! length nl
       = Some (mkTreeNode (candidate cfg sample mn) (Some m) [])) /\
  (exists cfg sample n,
     ~ outside_map cfg (start_position cfg) /\
     ~ outside_map cfg (goal_position cfg) /\
     in_map cfg sample /\
     run_rrt_2D cfg [sample] = Pending [add_child 1 (start_node cfg); n] /\
     parent n = Some 0%nat /\
     val n = vadd (start_position cfg)
               (vscale
                  (vdiv (vsub (sample_position sample) (start_position cfg))
                     (norm (vsub (sample_position sample) (start_position cfg))))
                  (step_size cfg)) /\
     collision (obstacle_list cfg) (val n) = false /\
     outside_map cfg (val n)).
Proof.
  split.
  - intros cfg sample nl m mn Hfar Hnear Hnz Hfree.
    exists (attach nl m (candidate cfg sample mn)). split.
    + now apply step_iteration, (step_extended _ _ _ m mn).
    + apply attach_lookup_new.
  - assert (sample_distance (sample_position (-10, 0)%Z) (start_node edge)
            = 1 / 10) as Hd by (apply norm_value; simpl; lra).
    assert (collision (obstacle_list edge)
              (candidate edge (-10, 0)%Z (start_node edge)) = false) as Hfree
      by (rewrite (candidate_value _ _ _ (1 / 10) Hd); no_collision).
    assert (iteration edge (-10, 0)%Z [start_node edge]
            = Some (Extended,
                    attach [start_node edge] 0
                      (candidate edge (-10, 0)%Z (start_node edge)))) as Hit.
    { apply step_iteration, step_extended.
      - apply all_far_Forall. repeat constructor; far_enough.
      - apply first_nearest_intro; [easy| |]; repeat constructor; far_enough.
      - rewrite Hd. lra.
      - exact Hfree. }
    exists edge, (-10, 0)%Z,
      (mkTreeNode (candidate edge (-10, 0)%Z (start_node edge)) (Some 0%nat) []).
    split; [unfold outside_map; simpl; lra|].
    split; [unfold outside_map; simpl; lra|].
    split; [split; simpl; lia|].
    split.
    { unfold run_rrt_2D. run_iteration Hit.
      now rewrite rrt_loop_nil by (simpl; lia). }
    split; [reflexivity|]. split; [reflexivity|].
    split; [exact Hfree|].
    simpl val. rewrite (candidate_value _ _ _ (1 / 10) Hd).
    left. simpl. lra.
Qed.

Lemma nodes_escape_the_map_witness :
  exists nl',
    iteration edge (-10, 0)%Z [start_node edge] = Some (Extended, nl') /\
    nl' !! length [start_node edge]
    = Some (mkTreeNode (candidate edge (-10, 0)%Z (start_node edge))
              (Some 0%nat) []).
Proof.
  assert (sample_distance (sample_position (-10, 0)%Z) (start_node edge)
          = 1 / 10) as Hd by (apply norm_value; simpl; lra).
  apply (proj1 nodes_escape_the_map edge (-10, 0)%Z [start_node edge] 0%nat
           (start_node edge)).
  - apply all_far_Forall. repeat constructor; far_enough.
  - apply first_nearest_intro; [easy| |]; repeat constructor; far_enough.
  - rewrite Hd. lra.
  - rewrite (candidate_value _ _ _ (1 / 10) Hd). no_collision.
Defined.

(** * Further properties of the planner *)

(** ** The nearest node *)

Lemma iteration_nil (cfg : RunConfig) (sample : Z * Z) :
  iteration cfg sample [] = None.
Proof. reflexivity. Qed.

(** What an iteration returned, read back as a step. *)
Lemma iteration_inv (cfg : RunConfig) (sample : Z * Z) (nl nl' : list TreeNode)
  (o : Outcome) :
  iteration cfg sample nl = Some (o, nl') -> step cfg sample nl o nl'.
Proof.
  intros Hit. destruct nl as [|n0 nl0]; [discriminate|].
  destruct (iteration_step cfg sample (n0 :: nl0)) as (o2 & nl2 & Hit2 & Hstep);
    [easy|].
  rewrite Hit in Hit2. now injection Hit2 as <- <-.
Qed.

(** X1. A committed candidate was steered from the node nearest to the
    sample; among nodes at the same smallest distance the first one in list
    order is taken (the comparison of the scan is strict). *)
Theorem extension_from_first_nearest (cfg : RunConfig) (sample : Z * Z)
  (nl nl' : list TreeNode) :
  iteration cfg sample nl = Some (Extended, nl') ->
  exists m mn,
    nl !! m = Some mn /\
    (forall j n, nl !! j = Some n ->
       sample_distance (sample_position sample) mn
       <= sample_distance (sample_position sample) n) /\
    (forall j n, (j < m)%nat -> nl !! j = Some n ->
       sample_distance (sample_position sample) mn
       < sample_distance (sample_position sample) n) /\
    nl' = attach nl m (candidate cfg sample mn).
Proof.
  intros Hit. apply iteration_inv in Hit.
  inversion Hit as [|m mn _ (_ & Hm & Hle & Hlt) _ _| |]; subst.
  exists m, mn. split; [easy|]. split; [|split; [easy|reflexivity]].
  intros j n Hj. apply (Hle j n); [eapply lookup_lt_Some; eauto|easy].
Qed.

Lemma extension_from_first_nearest_witness :
  exists m mn,
    corridor_1 !! m = Some mn /\
    (forall j n, corridor_1 !! j = Some n ->
       sample_distance (sample_position (5, 0)%Z) mn
       <= sample_distance (sample_position (5, 0)%Z) n) /\
    (forall j n, (j < m)%nat -> corridor_1 !! j = Some n ->
       sample_distance (sample_position (5, 0)%Z) mn
       < sample_distance (sample_position (5, 0)%Z) n) /\
    corridor_2 = attach corridor_1 m (candidate corridor (5, 0)%Z mn).
Proof.
  apply (extension_from_first_nearest corridor (5, 0)%Z corridor_1 corridor_2).
  exact (corridor_iteration_2 1000).
Defined.

(** ** How many nodes a run holds *)

Lemma rrt_loop_count (cfg : RunConfig) (samples : list (Z * Z)) :
  forall nl, nl <> [] ->
    (Z.of_nat (length nl) <= Z.max 1 (node_limit cfg))%Z ->
    match rrt_loop cfg samples nl with
    | Finished true nl' =>
        (length nl < length nl')%nat /\
        (Z.of_nat (length nl') <= node_limit cfg)%Z
    | Finished false nl' =>
        Z.of_nat (length nl') = Z.max 1 (node_limit cfg)
    | Pending nl' =>
        (length nl <= length nl')%nat /\
        (Z.of_nat (length nl') < node_limit cfg)%Z
    | Crashed => False
    end.
Proof.
  assert (forall nl : list TreeNode, nl <> [] -> (1 <= Z.of_nat (length nl))%Z)
    as Hpos by (intros [|? ?] ?; [easy|simpl; lia]).
  induction samples as [|sample rest IH]; intros nl Hne Hlen;
    pose proof (Hpos nl Hne);
    destruct (Z_lt_le_dec (Z.of_nat (length nl)) (node_limit cfg)) as [Hlt|Hge];
    try (rewrite rrt_loop_full by lia; lia).
  - rewrite rrt_loop_nil by lia. lia.
  - destruct (iteration_step cfg sample nl Hne) as (o & nl' & Hit & Hstep).
    rewrite (rrt_loop_cons _ _ _ _ _ _ Hlt Hit).
    pose proof (step_length _ _ _ _ _ Hstep) as Hl.
    pose proof (step_nonempty _ _ _ _ _ Hne Hstep) as Hne'.
    destruct o; [lia| | |];
      (specialize (IH nl' Hne' ltac:(lia));
       destruct (rrt_loop cfg rest nl') as [[|] nl2|nl2|]; lia).
Qed.

(** X2. The node count of a run, by the way it ended: a completed run
    holds at least two nodes and at most [node_limit]; a run that gave up
    holds exactly [node_limit] nodes (one when the limit is below one); a
    run still in the loop holds fewer than [node_limit]. *)
Theorem node_count_by_outcome (cfg : RunConfig) (samples : list (Z * Z)) :
  match run_rrt_2D cfg samples with
  | Finished true nl =>
      (2 <= length nl)%nat /\ (Z.of_nat (length nl) <= node_limit cfg)%Z
  | Finished false nl => Z.of_nat (length nl) = Z.max 1 (node_limit cfg)
  | Pending nl =>
      (1 <= length nl)%nat /\ (Z.of_nat (length nl) < node_limit cfg)%Z
  | Crashed => False
  end.
Proof.
  pose proof (rrt_loop_count cfg samples [start_node cfg]) as H.
  unfold run_rrt_2D.
  destruct (rrt_loop cfg samples [start_node cfg]) as [[|] nl|nl|];
    simpl in H; (destruct H; [easy|lia|]) || apply H; try easy; try lia.
Qed.

(** ** Where the goal node hangs *)

Lemma head_far_start (cfg : RunConfig) : head_far cfg [start_node cfg].
Proof. intros j n Hj. simpl in Hj. lia. Qed.

Lemma head_far_extended (cfg : RunConfig) (sample : Z * Z)
  (nl nl' : list TreeNode) :
  step cfg sample nl Extended nl' -> head_far cfg nl'.
Proof.
  intros Hstep. inversion Hstep as [|m mn Hfar _ _ _| |]; subst.
  intros j n' Hj Hn'. rewrite length_attach in Hj.
  apply attach_lookup_inv in Hn' as [[-> _]|(n & Hn & Hval & _)]; [lia|].
  unfold near_goal. rewrite Hval. exact (Hfar j n Hn).
Qed.

Lemma head_far_completed (cfg : RunConfig) (sample : Z * Z)
  (nl nl' : list TreeNode) :
  head_far cfg nl -> step cfg sample nl Completed nl' -> goal_on_last cfg nl'.
Proof.
  intros Hhead Hstep. inversion Hstep as [i n Hi Hnear _| | |]; subst.
  assert (i = length nl - 1)%nat as ->.
  { pose proof (lookup_lt_Some _ _ _ Hi).
    destruct (decide (S i < length nl)%nat) as [Hlt|]; [|lia].
    now destruct (Hhead i n Hlt Hi). }
  exists nl, n. split; [easy|]. split; [|easy].
  rewrite last_lookup. now replace (pred (length nl)) with (length nl - 1)%nat by lia.
Qed.

Lemma run_goal_on_last (cfg : RunConfig) (samples : list (Z * Z)) :
  match run_rrt_2D cfg samples with
  | Finished true nl => goal_on_last cfg nl
  | Finished false nl => nl <> [] /\ head_far cfg nl
  | Pending nl => nl <> [] /\ head_far cfg nl
  | Crashed => False
  end.
Proof.
  apply (rrt_loop_invariant cfg (fun nl => nl <> [] /\ head_far cfg nl)
           (goal_on_last cfg)).
  - now intros nl [Hne _].
  - intros sample nl nl' [Hne _] Hstep.
    split; [eapply step_nonempty; eauto|eapply head_far_extended; eauto].
  - intros sample nl nl' [_ Hhead]. now apply head_far_completed.
  - split; [easy|apply head_far_start].
Qed.

(** X3. In a completed run the goal node hangs from the node just before
    it in the list.  That node lies within the goal tolerance, so the goal
    node is closer than [goal_tolerance] to its parent, and no earlier node
    lies within the tolerance. *)
Theorem goal_hangs_from_previous_node (cfg : RunConfig)
  (samples : list (Z * Z)) (nl : list TreeNode) :
  run_rrt_2D cfg samples = Finished true nl ->
  exists q g,
    nl !! (length nl - 2)%nat = Some q /\ last nl = Some g /\
    parent g = Some (length nl - 2)%nat /\ val g = goal_position cfg /\
    near_goal cfg q /\ euclid (val g) (val q) < goal_tolerance cfg /\
    (forall j n, (S (S j) < length nl)%nat -> nl !! j = Some n ->
       ~ near_goal cfg n).
Proof.
  intros Hrun. pose proof (run_goal_on_last cfg samples) as H.
  rewrite Hrun in H. destruct H as (nl0 & n & Hhead & Hlast & Hnear & ->).
  rewrite last_lookup in Hlast.
  assert (0 < length nl0)%nat as Hpos by (apply lookup_lt_Some in Hlast; lia).
  rewrite length_attach.
  replace (S (length nl0) - 2)%nat with (length nl0 - 1)%nat by lia.
  replace (pred (length nl0)) with (length nl0 - 1)%nat in Hlast by lia.
  exists (add_child (length nl0) n),
    (new_TreeNode (goal_position cfg) (Some (length nl0 - 1)%nat)).
  split; [now apply attach_lookup_parent|]. split; [apply last_snoc|].
  split; [reflexivity|]. split; [reflexivity|]. split; [exact Hnear|]. split.
  - rewrite <- norm_vsub. exact Hnear.
  - intros j n' Hj Hn'.
    apply attach_lookup_inv in Hn' as [[-> _]|(n0 & Hn0 & Hval & _)]; [lia|].
    unfold near_goal. rewrite Hval. apply (Hhead j n0); [lia|easy].
Qed.

Lemma goal_hangs_from_previous_node_witness :
  exists q g,
    corridor_3 !! (length corridor_3 - 2)%nat = Some q /\
    last corridor_3 = Some g /\
    parent g = Some (length corridor_3 - 2)%nat /\
    val g = goal_position corridor /\
    near_goal corridor q /\
    euclid (val g) (val q) < goal_tolerance corridor /\
    (forall j n, (S (S j) < length corridor_3)%nat ->
       corridor_3 !! j = Some n -> ~ near_goal corridor n).
Proof.
  apply (goal_hangs_from_previous_node corridor [(5, 0); (5, 0); (5, 0)]%Z).
  exact corridor_run.
Defined.

(** ** When an iteration completes, and when it stalls *)

(** The first node within tolerance, when there is one. *)
Lemma first_near_split (cfg : RunConfig) (nl : list TreeNode) (i : nat)
  (n : TreeNode) :
  nl !! i = Some n -> near_goal cfg n ->
  exists pre m suf, nl = pre ++ m :: suf /\
                    Forall (fun k => ~ near_goal cfg k) pre /\ near_goal cfg m.
Proof.
  revert i. induction nl as [|a nl IH]; intros i Hi Hnear; [discriminate|].
  destruct (Rlt_dec (norm (vsub (goal_position cfg) (val a))) (goal_tolerance cfg))
    as [Ha|Ha].
  - exists [], a, nl. now repeat split.
  - destruct i as [|i]; [injection Hi as ->; now destruct Ha|].
    destruct (IH i Hi Hnear) as (pre & m & suf & -> & Hpre & Hm).
    exists (a :: pre), m, suf. split; [reflexivity|]. split; [|easy].
    now constructor.
Qed.

(** X4. An iteration completes the run exactly when some node of the list
    lies within the goal tolerance; the sample has no part in it. *)
Theorem completes_iff_some_node_near (cfg : RunConfig) (sample : Z * Z)
  (nl : list TreeNode) :
  (exists nl', iteration cfg sample nl = Some (Completed, nl')) <->
  (exists i n, nl !! i = Some n /\ near_goal cfg n).
Proof.
  split.
  - intros [nl' Hit]. apply iteration_inv in Hit.
    inversion Hit; subst. eauto.
  - intros (i & n & Hi & Hnear).
    destruct (first_near_split cfg nl i n Hi Hnear)
      as (pre & m & suf & -> & Hpre & Hm).
    eexists. now apply iteration_goal.
Qed.

Lemma norm_zero (a : Position) : norm a = 0 -> a = (0, 0).
Proof.
  intros H. apply sqrt_eq_0 in H; [|apply sum_squares_nonneg].
  destruct a as [x y]. simpl in H. f_equal; nra.
Qed.

Lemma sample_distance_zero (rp : Position) (n : TreeNode) :
  sample_distance rp n = 0 <-> val n = rp.
Proof.
  unfold sample_distance. split.
  - intros H. apply norm_zero in H. destruct rp as [x y], (val n) as [a b].
    unfold vsub in H. simpl in H. injection H as H1 H2. f_equal; lra.
  - intros ->. apply norm_value; [lra|]. simpl. ring.
Qed.

(** X5. While no node lies within the goal tolerance, an iteration stalls
    (forms no candidate and hands the list back) exactly when the sample
    falls on the position of a node of the tree. *)
Theorem stalls_iff_sample_on_node (cfg : RunConfig) (sample : Z * Z)
  (nl : list TreeNode) :
  all_far cfg nl ->
  (iteration cfg sample nl = Some (Stalled, nl) <->
   exists i n, nl !! i = Some n /\ val n = sample_position sample).
Proof.
  intros Hfar. split.
  - intros Hit. apply iteration_inv in Hit.
    inversion Hit as [| | |m mn _ (_ & Hm & _) Hz]; subst.
    exists m, mn. split; [easy|]. now apply sample_distance_zero.
  - intros (i & n & Hi & Hval).
    assert (nl <> []) as Hne by (intros ->; discriminate).
    destruct (iteration_step cfg sample nl Hne) as (o & nl' & Hit & Hstep).
    apply sample_distance_zero in Hval.
    pose proof (lookup_lt_Some _ _ _ Hi) as Hlt.
    inversion Hstep as [k m Hk Hnear _
                       |m mn _ (_ & _ & Hle & _) Hnz _
                       |m mn _ (_ & _ & Hle & _) Hnz _
                       |m mn _ _ _]; subst.
    + now destruct (Hfar k m Hk).
    + exfalso. specialize (Hle i n Hlt Hi). rewrite Hval in Hle.
      pose proof (norm_nonneg (vsub (sample_position sample) (val mn))).
      unfold sample_distance in *. lra.
    + exfalso. specialize (Hle i n Hlt Hi). rewrite Hval in Hle.
      pose proof (norm_nonneg (vsub (sample_position sample) (val mn))).
      unfold sample_distance in *. lra.
    + exact Hit.
Qed.

Lemma stalls_iff_sample_on_node_witness :
  iteration corridor (1, 0)%Z corridor_1 = Some (Stalled, corridor_1) <->
  exists i n, corridor_1 !! i = Some n /\ val n = sample_position (1, 0)%Z.
Proof.
  apply (stalls_iff_sample_on_node corridor (1, 0)%Z corridor_1).
  apply all_far_Forall. repeat constructor; far_enough.
Defined.

(** X6. When the start itself lies within the goal tolerance and the node
    limit is above one, the first iteration completes the run, whatever the
    samples: the tree is the root with the goal node as its only child, and
    the published path is the goal position alone. *)
Theorem start_within_tolerance (cfg : RunConfig) (sample : Z * Z)
  (rest : list (Z * Z)) :
  near_goal cfg (start_node cfg) -> (1 < node_limit cfg)%Z ->
  run_rrt_2D cfg (sample :: rest)
  = Finished true [mkTreeNode (start_position cfg) None [1%nat];
                   mkTreeNode (goal_position cfg) (Some 0%nat) []] /\
  publish_path [mkTreeNode (start_position cfg) None [1%nat];
                mkTreeNode (goal_position cfg) (Some 0%nat) []]
  = Some [goal_position cfg].
Proof.
  intros Hnear Hlimit. split; [|reflexivity].
  unfold run_rrt_2D.
  now rewrite (rrt_loop_cons cfg sample rest [start_node cfg] _ Completed
                 ltac:(simpl; lia)
                 (iteration_goal cfg sample [] [] (start_node cfg)
                    (Forall_nil_2 _) Hnear)).
Qed.

Lemma start_within_tolerance_witness :
  run_rrt_2D blocked_goal [(5, 0); (7, 7)]%Z
  = Finished true [mkTreeNode (start_position blocked_goal) None [1%nat];
                   mkTreeNode (goal_position blocked_goal) (Some 0%nat) []] /\
  publish_path [mkTreeNode (start_position blocked_goal) None [1%nat];
                mkTreeNode (goal_position blocked_goal) (Some 0%nat) []]
  = Some [goal_position blocked_goal].
Proof.
  apply (start_within_tolerance blocked_goal (5, 0)%Z [(7, 7)%Z]).
  - far_enough.
  - simpl. lia.
Defined.

(** ** Runs continue *)

(** The loop over two batches of samples is the loop over the first,
    continued over the second when it is still running. *)
Lemma rrt_loop_app (cfg : RunConfig) (s1 s2 : list (Z * Z)) :
  forall nl,
    rrt_loop cfg (s1 ++ s2) nl =
    match rrt_loop cfg s1 nl with
    | Pending nl' => rrt_loop cfg s2 nl'
    | r => r
    end.
Proof.
  induction s1 as [|sample rest IH]; intros nl.
  - destruct (Z_lt_le_dec (Z.of_nat (length nl)) (node_limit cfg)) as [Hlt|Hge].
    + now rewrite (rrt_loop_nil cfg nl Hlt).
    + now rewrite !rrt_loop_full by easy.
  - simpl. destruct (_ <? _)%Z; [|reflexivity].
    destruct (iteration cfg sample nl) as [[[] nl']|]; auto.
Qed.

(** ** Nodes stay where they are *)

Lemma keeps_refl (nl : list TreeNode) : keeps nl nl.
Proof. intros i n Hn. now exists n. Qed.

Lemma keeps_trans (a b c : list TreeNode) : keeps a b -> keeps b c -> keeps a c.
Proof.
  intros Hab Hbc i n Hn.
  destruct (Hab i n Hn) as (n1 & Hn1 & Hv1 & Hp1 & Hc1).
  destruct (Hbc i n1 Hn1) as (n2 & Hn2 & Hv2 & Hp2 & Hc2).
  exists n2. split; [easy|]. split; [congruence|]. split; [congruence|].
  now transitivity (children n1).
Qed.

Lemma keeps_attach (nl : list TreeNode) (m : nat) (v : Position) :
  keeps nl (attach nl m v).
Proof.
  intros i n Hn. destruct (decide (i = m)) as [->|Hne].
  - exists (add_child (length nl) n).
    split; [now apply attach_lookup_parent|]. split; [easy|]. split; [easy|].
    now apply prefix_app_r.
  - exists n. split; [|easy].
    rewrite attach_lookup_other; eauto using lookup_lt_Some.
Qed.

Lemma keeps_step (cfg : RunConfig) (sample : Z * Z) (nl nl' : list TreeNode)
  (o : Outcome) :
  step cfg sample nl o nl' -> keeps nl nl'.
Proof.
  intros Hstep.
  inversion Hstep; subst; auto using keeps_refl, keeps_attach.
Qed.

Lemma rrt_loop_keeps (cfg : RunConfig) (samples : list (Z * Z)) :
  forall nl, nl <> [] ->
    exists nl', nodes_of (rrt_loop cfg samples nl) = Some nl' /\ keeps nl nl'.
Proof.
  induction samples as [|sample rest IH]; intros nl Hne;
    destruct (Z_lt_le_dec (Z.of_nat (length nl)) (node_limit cfg)) as [Hlt|Hge];
    try (rewrite rrt_loop_full by lia; exists nl; split;
         [reflexivity|apply keeps_refl]).
  - rewrite rrt_loop_nil by lia. exists nl. split; [reflexivity|apply keeps_refl].
  - destruct (iteration_step cfg sample nl Hne) as (o & nl' & Hit & Hstep).
    rewrite (rrt_loop_cons _ _ _ _ _ _ Hlt Hit).
    pose proof (keeps_step _ _ _ _ _ Hstep) as Hk.
    pose proof (step_nonempty _ _ _ _ _ Hne Hstep) as Hne'.
    destruct o; [now exists nl'| | |];
      (destruct (IH nl' Hne') as (nl2 & Hn2 & Hk2);
       exists nl2; split; [easy|]; eapply keeps_trans; eauto).
Qed.

(** X8. A node, once in the list, stays: as the run goes on with further
    samples, every node keeps its index, its position and its parent, and
    its children list only grows at the end.  Nothing is removed, moved or
    re-parented. *)
Theorem nodes_never_change (cfg : RunConfig) (s1 s2 : list (Z * Z)) :
  exists nl1 nl2,
    nodes_of (run_rrt_2D cfg s1) = Some nl1 /\
    nodes_of (run_rrt_2D cfg (s1 ++ s2)) = Some nl2 /\
    (length nl1 <= length nl2)%nat /\
    forall i n, nl1 !! i = Some n ->
      exists n', nl2 !! i = Some n' /\ val n' = val n /\
                 parent n' = parent n /\ children n `prefix_of` children n'.
Proof.
  pose proof (run_grown cfg s1) as Hrun.
  unfold run_rrt_2D in *. rewrite rrt_loop_app.
  assert (forall nl1 nl2 : list TreeNode, keeps nl1 nl2 ->
            (length nl1 <= length nl2)%nat) as Hlen.
  { intros nl1 nl2 Hk. destruct (decide (length nl1 = 0)%nat) as [->|Hz]; [lia|].
    destruct (lookup_lt_is_Some_2 nl1 (length nl1 - 1)) as [n Hn]; [lia|].
    destruct (Hk _ _ Hn) as (n' & Hn' & _). apply lookup_lt_Some in Hn'. lia. }
  destruct (rrt_loop cfg s1 [start_node cfg]) as [[|] nl|nl|]; [| | |easy];
    try (exists nl, nl; repeat split; auto; apply keeps_refl).
  destruct (rrt_loop_keeps cfg s2 nl) as (nl2 & Hn2 & Hk).
  { destruct Hrun as [Hwf _]. eapply well_formed_nonempty; eauto. }
  exists nl, nl2. repeat split; auto.
Qed.

(** ** The published path, pose by pose *)

(** Along the walk the indices go down: the pose number [k] comes from a
    node at least [k] places before the node the walk started from. *)
Lemma climbs_decreasing (start : Position) (nl : list TreeNode) (c : nat)
  (poses : list (nat * Position)) :
  well_formed start nl -> climbs nl c poses ->
  forall k a va, poses !! k = Some (a, va) -> (a + k <= c)%nat.
Proof.
  intros Hwf. induction 1 as [|c node p poses Hc Hp Hclimb IH]; intros k a va Hk;
    [discriminate|].
  destruct k as [|k]; [simpl in Hk; injection Hk as <- _; lia|].
  specialize (IH k a va Hk).
  assert (parent_of nl c = Some p) as Hpc by (unfold parent_of; now rewrite Hc).
  apply (parent_of_earlier start) in Hpc as [Hlt _]; [lia|easy].
Qed.

(** X9. The path of a completed run never visits a node twice: its poses
    come from nodes of strictly decreasing index, none of them the root, so
    the path holds at most [len(node_list) - 1] poses. *)
Theorem path_descends (cfg : RunConfig) (samples : list (Z * Z))
  (nl : list TreeNode) :
  run_rrt_2D cfg samples = Finished true nl ->
  exists poses path,
    path_nodes nl = Some poses /\ publish_path nl = Some path /\
    length path = length poses /\
    (length path <= length nl - 1)%nat /\
    (forall k a va, poses !! k = Some (a, va) ->
       (0 < a)%nat /\ (a + k <= length nl - 1)%nat) /\
    (forall k a va b vb,
       poses !! k = Some (a, va) -> poses !! S k = Some (b, vb) -> (b < a)%nat).
Proof.
  intros Hrun. pose proof (run_grown cfg samples) as Hg. rewrite Hrun in Hg.
  pose proof (goal_attached_well_formed cfg nl Hg) as Hwf.
  destruct (goal_attached_path cfg nl Hg) as (rest & Hpath & Hclimb).
  set (poses := ((length nl - 1)%nat, goal_position cfg) :: rest) in *.
  pose proof (climbs_decreasing _ nl _ poses Hwf Hclimb) as Hdec.
  assert (forall k a va, poses !! k = Some (a, va) -> (0 < a)%nat) as Hpos.
  { intros k a va Hk.
    destruct (climbs_pose nl _ poses Hclimb k a va Hk) as (na & q & Hna & Hq & _).
    destruct a; [|lia].
    destruct (wf_root _ _ Hwf) as (root & H0 & Hnone & _). congruence. }
  exists poses, (map snd poses). split; [exact Hpath|]. split.
  { unfold publish_path. now rewrite Hpath. }
  split; [apply length_map|]. split; [|split].
  - rewrite length_map. destruct (decide (length poses = 0)%nat) as [->|Hz]; [lia|].
    destruct (lookup_lt_is_Some_2 poses (length poses - 1)) as [[a va] Hk]; [lia|].
    pose proof (Hdec _ _ _ Hk). pose proof (Hpos _ _ _ Hk). lia.
  - intros k a va Hk. split; [eapply Hpos; eauto|eapply Hdec; eauto].
  - intros k a va b vb Ha Hb.
    destruct (climbs_consecutive nl _ poses Hclimb k a va b vb Ha Hb)
      as (na & nb & Hna & _ & Hp & _).
    assert (parent_of nl a = Some b) as Hpa by (unfold parent_of; now rewrite Hna).
    now apply (parent_of_earlier (start_position cfg)) in Hpa as [Hlt _].
Qed.

Lemma path_descends_witness :
  exists poses path,
    path_nodes corridor_3 = Some poses /\ publish_path corridor_3 = Some path /\
    length path = length poses /\
    (length path <= length corridor_3 - 1)%nat /\
    (forall k a va, poses !! k = Some (a, va) ->
       (0 < a)%nat /\ (a + k <= length corridor_3 - 1)%nat) /\
    (forall k a va b vb,
       poses !! k = Some (a, va) -> poses !! S k = Some (b, vb) -> (b < a)%nat).
Proof.
  apply (path_descends corridor [(5, 0); (5, 0); (5, 0)]%Z).
  exact corridor_run.
Defined.

(** X10. The spacing of the published path, in exact real arithmetic (the
    rounding of the numpy doubles is not modelled, so on the doubles this
    holds up to rounding only): its first two poses, the goal and the node
    the goal hangs from, are closer than [goal_tolerance]; every later pair
    of consecutive poses is [step_size] apart (for a step size that is not
    negative). *)
Theorem path_spacing (cfg : RunConfig) (samples : list (Z * Z))
  (nl : list TreeNode) (path : list Position) :
  0 <= step_size cfg ->
  run_rrt_2D cfg samples = Finished true nl ->
  publish_path nl = Some path ->
  (forall a b, path !! 0%nat = Some a -> path !! 1%nat = Some b ->
     euclid a b < goal_tolerance cfg) /\
  (forall k a b, (0 < k)%nat -> path !! k = Some a -> path !! S k = Some b ->
     euclid a b = step_size cfg).
Proof.
  intros Hstep Hrun Hpub.
  pose proof (run_grown cfg samples) as Hg. rewrite Hrun in Hg.
  pose proof (run_goal_on_last cfg samples) as Hl. rewrite Hrun in Hl.
  pose proof (goal_attached_well_formed cfg nl Hg) as Hwf.
  destruct (goal_attached_path cfg nl Hg) as (rest & Hpath & Hclimb).
  set (poses := ((length nl - 1)%nat, goal_position cfg) :: rest) in *.
  unfold publish_path in Hpub. rewrite Hpath in Hpub. injection Hpub as <-.
  pose proof (climbs_decreasing _ nl _ poses Hwf Hclimb) as Hdec.
  assert (forall k a b, map snd poses !! k = Some a ->
            map snd poses !! S k = Some b ->
            exists ia ib na nb,
              poses !! k = Some (ia, a) /\ nl !! ia = Some na /\
              nl !! ib = Some nb /\ parent na = Some ib /\
              a = val na /\ b = val nb) as Hpair.
  { intros k a b Ha Hb.
    change (map snd poses) with (snd <$> poses) in Ha, Hb.
    rewrite list_lookup_fmap in Ha, Hb.
    destruct (poses !! k) as [[ia va]|] eqn:Hka; [|discriminate].
    destruct (poses !! S k) as [[ib vb]|] eqn:Hkb; [|discriminate].
    simpl in Ha, Hb. injection Ha as ->. injection Hb as ->.
    destruct (climbs_consecutive nl _ poses Hclimb k ia a ib b Hka Hkb)
      as (na & nb & Hna & Hnb & Hp & Hva & Hvb).
    now exists ia, ib, na, nb. }
  split.
  - intros a b Ha Hb.
    destruct (Hpair 0%nat a b Ha Hb)
      as (ia & ib & na & nb & Hk & Hna & Hnb & Hp & -> & ->).
    simpl in Hk. injection Hk as <- Hgoal.
    destruct Hl as (nl0 & n & _ & Hlast & Hnear & ->).
    rewrite last_lookup in Hlast.
    assert (0 < length nl0)%nat by (apply lookup_lt_Some in Hlast; lia).
    rewrite length_attach in Hna. simpl in Hna. rewrite Nat.sub_0_r in Hna.
    rewrite attach_lookup_new in Hna. injection Hna as <-.
    simpl in Hp. injection Hp as <-.
    replace (pred (length nl0)) with (length nl0 - 1)%nat in Hlast by lia.
    rewrite (attach_lookup_parent _ _ _ _ Hlast) in Hnb. injection Hnb as <-.
    simpl. rewrite <- norm_vsub. exact Hnear.
  - intros k a b Hk Ha Hb.
    destruct (Hpair k a b Ha Hb)
      as (ia & ib & na & nb & Hka & Hna & Hnb & Hp & -> & ->).
    pose proof (Hdec _ _ _ Hka) as Hle.
    assert (0 < ia)%nat as Hpos.
    { destruct ia; [|lia].
      destruct (wf_root _ _ Hwf) as (root & H0 & Hnone & _). congruence. }
    pose proof (lookup_lt_Some _ _ _ Hna) as Hlt.
    destruct (goal_attached_inner cfg nl Hg ia na Hpos ltac:(lia) Hna)
      as [_ (p & pn & Hp' & Hpn & Hd)].
    rewrite Hp in Hp'. injection Hp' as <-.
    rewrite Hnb in Hpn. injection Hpn as <-.
    now rewrite Hd, Rabs_pos_eq.
Qed.

Lemma path_spacing_witness :
  0 <= step_size corridor /\
  ((forall a b, [(2, 0); (2, 0); (1, 0)] !! 0%nat = Some a ->
      [(2, 0); (2, 0); (1, 0)] !! 1%nat = Some b ->
      euclid a b < goal_tolerance corridor) /\
   (forall k a b, (0 < k)%nat -> [(2, 0); (2, 0); (1, 0)] !! k = Some a ->
      [(2, 0); (2, 0); (1, 0)] !! S k = Some b ->
      euclid a b = step_size corridor)).
Proof.
  assert (0 <= step_size corridor) as Hstep by (simpl; lra).
  split; [exact Hstep|].
  exact (path_spacing corridor [(5, 0); (5, 0); (5, 0)]%Z corridor_3
           [(2, 0); (2, 0); (1, 0)] Hstep corridor_run eq_refl).
Defined.

(** ** How far the tree reaches *)

Lemma euclid_triangle (a b c : Position) :
  euclid a c <= euclid a b + euclid b c.
Proof.
  assert (forall p q : Position, euclid p q = dist_euc p.1 p.2 q.1 q.2) as E.
  { intros p q. unfold euclid, dist_euc, Rsqr. f_equal. ring. }
  rewrite !E. apply triangle.
Qed.

Lemma euclid_refl (a : Position) : euclid a a = 0.
Proof.
  rewrite <- norm_vsub. apply norm_value; [lra|]. unfold vsub. simpl. ring.
Qed.

Lemma euclid_sym (a b : Position) : euclid a b = euclid b a.
Proof. unfold euclid. f_equal. ring. Qed.

(** The node of index [i] of a growing tree lies within [i] steps of the
    start. *)
Lemma grown_reach (cfg : RunConfig) (nl : list TreeNode) :
  grown cfg nl ->
  forall i n, nl !! i = Some n ->
    euclid (val n) (start_position cfg) <= INR i * Rabs (step_size cfg).
Proof.
  intros [Hwf Hext] i.
  induction i as [i IH] using lt_wf_ind. intros n Hn.
  destruct i as [|i].
  - destruct (wf_root _ _ Hwf) as (root & H0 & _ & Hval).
    rewrite Hn in H0. injection H0 as ->.
    rewrite Hval, euclid_refl. simpl. lra.
  - destruct (Hext (S i) n ltac:(lia) Hn) as [_ (p & pn & Hp & Hpn & Hd)].
    destruct (wf_parent _ _ Hwf _ _ Hn ltac:(lia)) as (p' & Hp' & Hlt).
    rewrite Hp in Hp'. injection Hp' as <-.
    pose proof (IH p Hlt pn Hpn) as Hreach.
    pose proof (euclid_triangle (val n) (val pn) (start_position cfg)) as Htri.
    pose proof (Rabs_pos (step_size cfg)) as Hs.
    assert (INR p + 1 <= INR (S i)) as Hle.
    { rewrite <- S_INR. apply le_INR. lia. }
    nra.
Qed.

(** X11. How far the tree reaches, in exact real arithmetic (the rounding
    of the numpy doubles is not modelled, so on the doubles the bounds hold
    up to rounding only and a run on the very boundary can differ): the
    node of index [i], the goal node apart, lies within [i * |step_size|]
    of the start; a run that completes has its goal closer to the start
    than [goal_tolerance + (len(node_list) - 2) * |step_size|]. *)
Theorem reach_bounded_by_steps (cfg : RunConfig) (samples : list (Z * Z)) :
  match run_rrt_2D cfg samples with
  | Finished true nl =>
      (forall i n, (S i < length nl)%nat -> nl !! i = Some n ->
         euclid (val n) (start_position cfg) <= INR i * Rabs (step_size cfg)) /\
      euclid (start_position cfg) (goal_position cfg)
      < goal_tolerance cfg + INR (length nl - 2) * Rabs (step_size cfg)
  | Finished false nl | Pending nl =>
      forall i n, nl !! i = Some n ->
        euclid (val n) (start_position cfg) <= INR i * Rabs (step_size cfg)
  | Crashed => False
  end.
Proof.
  pose proof (run_grown cfg samples) as Hrun.
  destruct (run_rrt_2D cfg samples) as [[|] nl|nl|];
    [|now apply grown_reach|now apply grown_reach|easy].
  destruct Hrun as (nl0 & i & q & Hg & Hi & Hnear & ->).
  pose proof (grown_reach cfg nl0 Hg) as Hreach.
  rewrite length_attach. split.
  - intros j n' Hj Hn'.
    apply attach_lookup_inv in Hn' as [[-> _]|(n & Hn & Hval & _)]; [lia|].
    rewrite Hval. now apply Hreach.
  - pose proof (Hreach i q Hi) as Hq.
    pose proof (lookup_lt_Some _ _ _ Hi) as Hlt.
    pose proof (euclid_triangle (start_position cfg) (val q) (goal_position cfg))
      as Htri.
    rewrite (euclid_sym (start_position cfg) (val q)) in Htri.
    unfold near_goal in Hnear. rewrite norm_vsub in Hnear.
    rewrite (euclid_sym (goal_position cfg)) in Hnear.
    pose proof (Rabs_pos (step_size cfg)) as Hs.
    assert (INR i <= INR (S (length nl0) - 2)) as Hle by (apply le_INR; lia).
    nra.
Qed.

(** ** Degenerate obstacles, and the obstacle loop *)

(** X12. An obstacle without extent contains no point: a circle whose
    radius is zero or negative, or a rectangle whose width or height is
    zero or negative, never collides. *)
Theorem empty_obstacles_never_collide :
  (forall x y radius p,
     radius <= 0 -> collides (Circle x y radius) p = false) /\
  (forall x y width height orientation p,
     width <= 0 \/ height <= 0 ->
     collides (Rectangle x y width height orientation) p = false).
Proof.
  split.
  - intros x y radius p Hr. apply not_true_is_false.
    rewrite collides_circle, <- norm_vsub.
    pose proof (norm_nonneg (vsub p (x, y))). lra.
  - intros x y w h o p Hwh. apply not_true_is_false.
    rewrite collides_rectangle. lra.
Qed.

Lemma empty_obstacles_never_collide_witness :
  collides (Circle 1 1 0) (1, 1) = false /\
  collides (Rectangle 0 0 (-1) 4 0) (0, 0) = false.
Proof.
  split.
  - apply (proj1 empty_obstacles_never_collide). lra.
  - apply (proj2 empty_obstacles_never_collide). left. lra.
Defined.

Lemma collision_true (obstacles : list Obstacle) (p : Position) :
  collision obstacles p = true <->
  exists o, In o obstacles /\ collides o p = true.
Proof.
  induction obstacles as [|o rest IH]; simpl.
  - split; [discriminate|now intros (o & [] & _)].
  - destruct (collides o p) eqn:E.
    + split; [intros _; exists o; split; [now left|easy]|reflexivity].
    + rewrite IH. split.
      * intros (o' & Hin & Hc). exists o'. split; [now right|easy].
      * intros (o' & [<-|Hin] & Hc); [congruence|now exists o'].
Qed.

Lemma scan_same_goal (cfg cfg' : RunConfig) :
  goal_position cfg' = goal_position cfg ->
  goal_tolerance cfg' = goal_tolerance cfg ->
  forall rp l i s, scan cfg' rp l i s = scan cfg rp l i s.
Proof.
  intros Hg Ht rp l. induction l as [|node rest IH]; intros i s; [reflexivity|].
  rewrite !scan_cons, Hg, Ht. now destruct (Rltb _ _).
Qed.

(** X13. The obstacle loop, which breaks at the first hit, reports a
    collision exactly when some obstacle of the list contains the
    candidate; reordering the obstacle list does not change what an
    iteration returns. *)
Theorem collision_any_obstacle (cfg : RunConfig) (p : Position) :
  (collision (obstacle_list cfg) p = true <->
   exists o, In o (obstacle_list cfg) /\ collides o p = true) /\
  (forall obstacles' sample nl,
     Permutation (obstacle_list cfg) obstacles' ->
     iteration
       (mkRunConfig (start_position cfg) (goal_position cfg) (map_size cfg)
          (node_limit cfg) (goal_tolerance cfg) (step_size cfg) obstacles')
       sample nl = iteration cfg sample nl).
Proof.
  split; [apply collision_true|].
  intros obstacles' sample nl Hperm.
  assert (forall q, collision obstacles' q = collision (obstacle_list cfg) q)
    as Hsame.
  { intros q. destruct (collision (obstacle_list cfg) q) eqn:E.
    - apply collision_true in E as (o & Hin & Hc). apply collision_true.
      exists o. split; [|easy]. eapply Permutation_in; eauto.
    - apply collision_false. intros o Hin.
      rewrite collision_false in E. apply E.
      eapply Permutation_in; [symmetry|]; eauto. }
  set (cfg' := mkRunConfig _ _ _ _ _ _ obstacles').
  unfold iteration.
  rewrite (scan_same_goal cfg cfg' eq_refl eq_refl).
  destruct (scan cfg _ _ _ _) as [i|s]; [reflexivity|].
  destruct (min_distance s) as [d|]; [|reflexivity].
  destruct (Rneqb d 0); [|reflexivity].
  destruct (min_node s) as [m|]; [|reflexivity].
  destruct (min_node_vec s) as [vec|]; [|reflexivity].
  destruct (nl !! m) as [mn|]; [|reflexivity].
  simpl obstacle_list. unfold steer at 1 2. simpl step_size.
  fold (steer cfg (val mn) vec d). now rewrite Hsame.
Qed.

Lemma collision_any_obstacle_witness :
  iteration
    (mkRunConfig (start_position corridor) (goal_position corridor)
       (map_size corridor) (node_limit corridor) (goal_tolerance corridor)
       (step_size corridor) [Rectangle (-1) (-1) 1 1 0; Circle 1 1 1])
    (5, 0)%Z corridor_1
  = iteration corridor (5, 0)%Z corridor_1.
Proof.
  apply (proj2 (collision_any_obstacle corridor (0, 0))).
  simpl. apply perm_swap.
Defined.

(** * The plot *)

Lemma lines_app (c : string) (a b : list PlotCall) :
  lines c (a ++ b) = lines c a ++ lines c b.
Proof.
  induction a as [|call a IH]; [reflexivity|].
  destruct call; simpl; try exact IH.
  destruct (String.eqb _ _); simpl; now rewrite IH.
Qed.

Lemma lines_pauses (c : string) (animate : bool) (t : R) :
  lines c (if animate then [pause t] else []) = [].
Proof. now destruct animate. Qed.

(** The green lines of the tree loop: one for each node with a parent. *)
Lemma tree_lines_edges (animate : bool) (nl l : list TreeNode) :
  Forall (fun n => exists p pn, parent n = Some p /\ nl !! p = Some pn) l ->
  exists calls,
    tree_lines animate nl l = Some calls /\
    lines "r" calls = [] /\
    Forall2 (fun n ab => exists p pn, parent n = Some p /\ nl !! p = Some pn /\
                                      ab = (val n, val pn))
      l (lines "g" calls).
Proof.
  induction 1 as [|n l (p & pn & Hp & Hpn) _ (calls & Hcalls & Hred & Hgreen)].
  - exists []. now repeat split.
  - simpl. unfold segment. rewrite Hp, Hpn, Hcalls. eexists. split; [reflexivity|].
    simpl. rewrite !lines_app, !lines_pauses. simpl. split; [exact Hred|].
    constructor; [|exact Hgreen]. exists p, pn.
    split; [easy|]. split; [easy|]. now rewrite <- !surjective_pairing.
Qed.

(** The red lines of the walk: they start at the poses of the path and
    form one polyline up to the node at which the walk ends. *)
Lemma path_lines_walk (animate : bool) (nl : list TreeNode) :
  forall fuel c node poses,
    nl !! c = Some node -> walk fuel nl c = Some poses ->
    exists calls t top,
      path_lines fuel animate nl c = Some calls /\
      lines "g" calls = [] /\
      map fst (lines "r" calls) = map snd poses /\
      nl !! t = Some top /\ parent top = None /\
      chained (val node) (lines "r" calls) (val top).
Proof.
  induction fuel as [|fuel IH]; intros c node poses Hc; simpl; [discriminate|].
  rewrite Hc. destruct (parent node) as [p|] eqn:Hp.
  - destruct (walk fuel nl p) as [rest|] eqn:Hw; [|discriminate].
    intros [= <-].
    assert (exists pn, nl !! p = Some pn) as [pn Hpn].
    { destruct fuel; [discriminate|]. simpl in Hw.
      destruct (nl !! p); [eauto|discriminate]. }
    destruct (IH p pn rest Hpn Hw)
      as (calls & t & top & Hcalls & Hgreen & Hred & Ht & Hnone & Hchain).
    unfold segment. rewrite Hpn, Hcalls. eexists _, t, top.
    split; [reflexivity|]. simpl.
    rewrite !lines_app, !lines_pauses. simpl.
    rewrite <- !surjective_pairing.
    split; [exact Hgreen|]. split; [now rewrite Hred|].
    split; [exact Ht|]. split; [exact Hnone|]. now constructor.
  - intros [= <-]. exists [], c, node. repeat split; auto. constructor.
Qed.

(** In a well-formed list every node but the root has a parent in the
    list. *)
Lemma well_formed_tail_parents (start : Position) (nl : list TreeNode) :
  well_formed start nl ->
  exists root rest,
    nl = root :: rest /\ parent root = None /\ val root = start /\
    Forall (fun n => exists p pn, parent n = Some p /\ nl !! p = Some pn) rest.
Proof.
  intros Hwf. destruct (wf_root _ _ Hwf) as (root & H0 & Hnone & Hval).
  destruct nl as [|r rest]; [discriminate|]. injection H0 as ->.
  exists root, rest. repeat split; auto.
  apply Forall_lookup. intros i n Hn.
  destruct (wf_parent _ _ Hwf (S i) n Hn ltac:(lia)) as (p & Hp & Hlt).
  destruct (lookup_lt_is_Some_2 (root :: rest) p) as [pn Hpn].
  { apply lookup_lt_Some in Hn. simpl in *. lia. }
  now exists p, pn.
Qed.

(** The plot of the tree of a completed run. *)
Lemma plot_completed (cfg : RunConfig) (animate : bool) (nl : list TreeNode) :
  goal_attached cfg nl ->
  exists calls poses,
    plot_rrt_2D cfg animate nl = Some calls /\
    path_nodes nl = Some poses /\
    Forall2 (fun n ab => exists p pn, parent n = Some p /\ nl !! p = Some pn /\
                                      ab = (val n, val pn))
      (tail nl) (lines "g" calls) /\
    map fst (lines "r" calls) = map snd poses /\
    chained (goal_position cfg) (lines "r" calls) (start_position cfg).
Proof.
  intros Hg. pose proof (goal_attached_well_formed cfg nl Hg) as Hwf.
  destruct (goal_attached_path cfg nl Hg) as (rest & Hpath & _).
  destruct (goal_attached_last cfg nl Hg) as (i & q & _ & _ & _ & Hlast).
  destruct (well_formed_tail_parents _ nl Hwf)
    as (root & tl & Hnl & Hnone & Hval & Hparents).
  destruct (tree_lines_edges animate nl tl Hparents)
    as (tree & Htree & Htree_red & Htree_green).
  rewrite last_lookup in Hlast.
  assert (path_nodes nl = walk (length nl) nl (length nl - 1)) as Hpn
    by (rewrite Hnl; reflexivity).
  rewrite Hpn in Hpath.
  replace (pred (length nl)) with (length nl - 1)%nat in Hlast by lia.
  destruct (path_lines_walk animate nl _ _ _ _ Hlast Hpath)
    as (path & t & top & Hcalls & Hpath_green & Hpath_red & Ht & Htop & Hchain).
  assert (t = 0%nat) as -> by now apply (parentless_is_root _ nl t top Hwf).
  assert (top = root) as -> by (rewrite Hnl in Ht; now injection Ht).
  assert (tree_lines animate nl nl = Some tree) as Htree'.
  { rewrite Hnl at 2. simpl. now rewrite Hnone. }
  unfold plot_rrt_2D. rewrite Htree', Hcalls.
  eexists _, _. split; [rewrite Hnl at 1; reflexivity|].
  split; [rewrite Hpn; exact Hpath|].
  simpl. rewrite !lines_app. simpl.
  assert (forall c, lines c (if animate then [ion] else []) = []) as Hion
    by (intros c; now destruct animate).
  assert (forall c, lines c (if animate then [ioff] else []) = []) as Hioff
    by (intros c; now destruct animate).
  rewrite !Hion, !Hioff, Htree_red, Hpath_green, !app_nil_r. simpl.
  split.
  { replace (tail nl) with tl by (rewrite Hnl; reflexivity). exact Htree_green. }
  split; [exact Hpath_red|].
  simpl in Hchain. now rewrite Hval in Hchain.
Qed.

(** X14. The plot of a completed run draws the whole tree: there is one
    green line for every node but the root, in list order, and the line of
    a node joins its position to the position of its parent.  Plotting does
    not fail. *)
Theorem plot_draws_every_edge (cfg : RunConfig) (samples : list (Z * Z))
  (animate : bool) (nl : list TreeNode) :
  run_rrt_2D cfg samples = Finished true nl ->
  exists calls,
    plot_rrt_2D cfg animate nl = Some calls /\
    length (lines "g" calls) = (length nl - 1)%nat /\
    forall k a b, lines "g" calls !! k = Some (a, b) ->
      exists n p pn, nl !! S k = Some n /\ parent n = Some p /\
                     nl !! p = Some pn /\ a = val n /\ b = val pn.
Proof.
  intros Hrun. pose proof (run_grown cfg samples) as Hg. rewrite Hrun in Hg.
  destruct (plot_completed cfg animate nl Hg)
    as (calls & poses & Hplot & _ & Hgreen & _).
  exists calls. split; [exact Hplot|]. split.
  - apply Forall2_length in Hgreen. rewrite <- Hgreen.
    destruct nl; simpl; lia.
  - intros k a b Hk.
    destruct (Forall2_lookup_r _ _ _ _ _ Hgreen Hk)
      as (n & Hn & p & pn & Hp & Hpn & Hab).
    injection Hab as -> ->. exists n, p, pn. repeat split; auto.
    destruct nl; [discriminate|exact Hn].
Qed.

Lemma plot_draws_every_edge_witness :
  exists calls,
    plot_rrt_2D corridor true corridor_3 = Some calls /\
    length (lines "g" calls) = (length corridor_3 - 1)%nat /\
    forall k a b, lines "g" calls !! k = Some (a, b) ->
      exists n p pn, corridor_3 !! S k = Some n /\ parent n = Some p /\
                     corridor_3 !! p = Some pn /\ a = val n /\ b = val pn.
Proof.
  apply (plot_draws_every_edge corridor [(5, 0); (5, 0); (5, 0)]%Z).
  exact corridor_run.
Defined.

(** X15. The red lines of the plot form one polyline from the goal
    position down to the start position.  They start at the poses of the
    published path, one line per pose: the plotted path reaches the start,
    which the published path leaves out. *)
Theorem plot_path_reaches_start (cfg : RunConfig) (samples : list (Z * Z))
  (animate : bool) (nl : list TreeNode) :
  run_rrt_2D cfg samples = Finished true nl ->
  exists calls path,
    plot_rrt_2D cfg animate nl = Some calls /\
    publish_path nl = Some path /\
    map fst (lines "r" calls) = path /\
    chained (goal_position cfg) (lines "r" calls) (start_position cfg).
Proof.
  intros Hrun. pose proof (run_grown cfg samples) as Hg. rewrite Hrun in Hg.
  destruct (plot_completed cfg animate nl Hg)
    as (calls & poses & Hplot & Hpath & _ & Hred & Hchain).
  exists calls, (map snd poses). split; [exact Hplot|].
  split; [unfold publish_path; now rewrite Hpath|]. now split.
Qed.

Lemma plot_path_reaches_start_witness :
  exists calls path,
    plot_rrt_2D corridor false corridor_3 = Some calls /\
    publish_path corridor_3 = Some path /\
    map fst (lines "r" calls) = path /\
    chained (goal_position corridor) (lines "r" calls) (start_position corridor).
Proof.
  apply (plot_path_reaches_start corridor [(5, 0); (5, 0); (5, 0)]%Z).
  exact corridor_run.
Defined.

(** ** Animation *)

Lemma still_app (a b : list PlotCall) : still (a ++ b) = still a ++ still b.
Proof. apply List.filter_app. Qed.

Lemma tree_lines_still (nl l : list TreeNode) :
  tree_lines false nl l = option_map still (tree_lines true nl l).
Proof.
  induction l as [|node rest IH]; [reflexivity|]. simpl.
  destruct (parent node) as [p|]; [|exact IH].
  rewrite IH. unfold segment. destruct (nl !! p) as [pn|]; [|reflexivity].
  now destruct (tree_lines true nl rest).
Qed.

Lemma path_lines_still (nl : list TreeNode) :
  forall fuel c,
    path_lines fuel false nl c = option_map still (path_lines fuel true nl c).
Proof.
  induction fuel as [|fuel IH]; intros c; [reflexivity|]. simpl.
  destruct (nl !! c) as [node|]; [|reflexivity].
  destruct (parent node) as [p|]; [|reflexivity].
  rewrite IH. unfold segment. destruct (nl !! p) as [pn|]; [|reflexivity].
  now destruct (path_lines fuel true nl p).
Qed.

(** X16. The [animate] flag changes nothing of what is drawn: without it
    the calls are those made with it, less [ion], the pauses and [ioff];
    and the plot fails with it exactly when it fails without it. *)
Theorem animation_only_adds_pauses (cfg : RunConfig) (nl : list TreeNode) :
  plot_rrt_2D cfg false nl = option_map still (plot_rrt_2D cfg true nl).
Proof.
  unfold plot_rrt_2D. destruct nl as [|n0 rest]; [reflexivity|].
  rewrite tree_lines_still, path_lines_still.
  destruct (tree_lines true _ _) as [tree|]; [|reflexivity].
  destruct (path_lines _ true _ _) as [path|]; [|reflexivity].
  simpl. now rewrite !still_app.
Qed.

(** * The markers *)

(** The first slot that [f] accepts, in a list of consecutive slots. *)
Lemma find_seq_first (f : nat -> bool) (n : nat) :
  forall a i, (a <= i < a + n)%nat -> f i = true ->
    exists k, List.find f (seq a n) = Some k /\ (a <= k <= i)%nat /\
              f k = true /\ forall j, (a <= j < k)%nat -> f j = false.
Proof.
  induction n as [|n IH]; intros a i Hi Hf; [lia|]. simpl.
  destruct (f a) eqn:Ha.
  - exists a. split; [reflexivity|]. split; [lia|]. split; [easy|]. lia.
  - assert (i <> a) by congruence.
    destruct (IH (S a) i) as (k & Hk & Hle & Hfk & Hbefore); [lia|easy|].
    exists k. split; [easy|]. split; [lia|]. split; [easy|].
    intros j Hj. destruct (decide (j = a)) as [->|]; [easy|]. apply Hbefore. lia.
Qed.

(** [index] finds an object that is in the list, at its slot or before. *)
Lemma py_index_found (same : nat -> nat -> bool) (n i : nat) :
  same i i = true -> (i < n)%nat ->
  exists k, py_index same n i = Some k /\ (k <= i)%nat /\ same k i = true /\
            forall j, (j < k)%nat -> same j i = false.
Proof.
  intros Hrefl Hi.
  destruct (find_seq_first (fun j => same j i) n 0 i ltac:(lia) Hrefl)
    as (k & Hk & Hle & Hsame & Hbefore).
  exists k. split; [exact Hk|]. split; [lia|]. split; [easy|].
  intros j Hj. apply Hbefore. lia.
Qed.

Lemma markers_from_lookup {A : Type} (f : nat -> A -> option Marker) (l : list A) :
  forall start ms, markers_from f start l = Some ms ->
    length ms = length l /\
    forall k x, l !! k = Some x ->
      exists m, ms !! k = Some m /\ f (start + k)%nat x = Some m.
Proof.
  induction l as [|x rest IH]; intros start ms; simpl.
  - intros [= <-]. split; [reflexivity|]. intros k x' Hk. discriminate.
  - destruct (f start x) as [m|] eqn:Hm; [|discriminate].
    destruct (markers_from f (S start) rest) as [ms'|] eqn:Hrest; [|discriminate].
    intros [= <-]. destruct (IH _ _ Hrest) as [Hlen Hall].
    split; [simpl; lia|]. intros [|k] x' Hk.
    + injection Hk as <-. exists m. now rewrite Nat.add_0_r.
    + destruct (Hall k x' Hk) as (m' & Hm' & Hf).
      exists m'. split; [easy|]. now rewrite Nat.add_succ_r.
Qed.

Lemma markers_from_total {A : Type} (f : nat -> A -> option Marker) (l : list A) :
  forall start,
    (forall k x, l !! k = Some x -> is_Some (f (start + k)%nat x)) ->
    is_Some (markers_from f start l).
Proof.
  induction l as [|x rest IH]; intros start Hall; simpl; [now eexists|].
  destruct (Hall 0%nat x eq_refl) as [m Hm]. rewrite Nat.add_0_r in Hm.
  rewrite Hm. destruct (IH (S start)) as [ms ->]; [|now eexists].
  intros k x' Hk. specialize (Hall (S k) x' Hk).
  now rewrite Nat.add_succ_r in Hall.
Qed.

Section MarkerFacts.

Context (same_node same_obstacle : nat -> nat -> bool) (cfg : RunConfig).

Lemma node_marker_found (nl : list TreeNode) (i : nat) (node : TreeNode) :
  same_node i i = true -> nl !! i = Some node ->
  exists k, (k <= i)%nat /\ same_node k i = true /\
            (forall j, (j < k)%nat -> same_node j i = false) /\
            node_marker same_node nl i node
            = Some (mkMarker "map" "rrt_markers" (Z.of_nat k + 2) SPHERE ADD
                      (1 / 10, 1 / 10, 1 / 10) (0, 1, 0, 1)
                      ((val node).1, (val node).2, 0)).
Proof.
  intros Hrefl Hi. pose proof (lookup_lt_Some _ _ _ Hi) as Hlt.
  destruct (py_index_found same_node (length nl) i Hrefl Hlt)
    as (k & Hk & Hle & Hsame & Hbefore).
  exists k. repeat split; auto. unfold node_marker. now rewrite Hk.
Qed.

Lemma obstacle_marker_found (nl : list TreeNode) (j : nat) (o : Obstacle) :
  same_obstacle j j = true -> obstacle_list cfg !! j = Some o ->
  exists k, (k <= j)%nat /\ same_obstacle k j = true /\
            (forall j', (j' < k)%nat -> same_obstacle j' j = false) /\
            obstacle_marker same_obstacle cfg nl j o
            = Some (match o with
                    | Circle x y radius =>
                        mkMarker "map" "rrt_markers"
                          (Z.of_nat k + Z.of_nat (length nl) + 2) CYLINDER ADD
                          (radius * 2, radius * 2, 1 / 10) (1, 0, 0, 1) (x, y, 0)
                    | Rectangle x y width height _ =>
                        mkMarker "map" "rrt_markers"
                          (Z.of_nat k + Z.of_nat (length nl) + 2) CUBE ADD
                          (width, height, 1 / 10) (1, 0, 0, 1) (x, y, 0)
                    end).
Proof.
  intros Hrefl Hj. pose proof (lookup_lt_Some _ _ _ Hj) as Hlt.
  destruct (py_index_found same_obstacle (length (obstacle_list cfg)) j Hrefl Hlt)
    as (k & Hk & Hle & Hsame & Hbefore).
  exists k. repeat split; auto. unfold obstacle_marker. rewrite Hk.
  now destruct o.
Qed.

(** What [publish_markers] returns, slot by slot. *)
Lemma publish_markers_slots (nl : list TreeNode) :
  (forall i, same_node i i = true) -> (forall j, same_obstacle j j = true) ->
  exists ms,
    publish_markers same_node same_obstacle cfg nl = Some ms /\
    length ms = (length nl + length (obstacle_list cfg))%nat /\
    (forall i node, nl !! i = Some node ->
       exists m, ms !! i = Some m /\ node_marker same_node nl i node = Some m) /\
    (forall j o, obstacle_list cfg !! j = Some o ->
       exists m, ms !! (length nl + j)%nat = Some m /\
                 obstacle_marker same_obstacle cfg nl j o = Some m).
Proof.
  intros Hn Ho. unfold publish_markers.
  destruct (markers_from_total (node_marker same_node nl) nl 0) as [a Ha].
  { intros k x Hk. change (0 + k)%nat with k.
    destruct (node_marker_found nl k x (Hn k) Hk) as (? & _ & _ & _ & ->).
    now eexists. }
  destruct (markers_from_total (obstacle_marker same_obstacle cfg nl)
              (obstacle_list cfg) 0) as [b Hb].
  { intros k x Hk. change (0 + k)%nat with k.
    destruct (obstacle_marker_found nl k x (Ho k) Hk) as (? & _ & _ & _ & ->).
    now eexists. }
  rewrite Ha, Hb.
  destruct (markers_from_lookup _ _ _ _ Ha) as [Hla Hsa].
  destruct (markers_from_lookup _ _ _ _ Hb) as [Hlb Hsb].
  exists (a ++ b). split; [reflexivity|]. split; [rewrite length_app; lia|]. split.
  - intros i node Hi. destruct (Hsa i node Hi) as (m & Hm & Hf).
    exists m. split; [now apply lookup_app_l_Some|exact Hf].
  - intros j o Hj. destruct (Hsb j o Hj) as (m & Hm & Hf).
    exists m. split; [|exact Hf].
    rewrite lookup_app_r by lia. now replace (length nl + j - length a)%nat with j by lia.
Qed.

End MarkerFacts.

(** X17. [publish_markers] does not fail and returns one marker per node
    followed by one per obstacle.  The marker of a node is a sphere at the
    node's position, at height zero; that of a circle is a cylinder of
    diameter twice the radius, that of a rectangle a cube of its width and
    height.  Node markers carry ids from 2 up to their slot plus 2, obstacle
    markers ids above those of all nodes: no obstacle shares an id with a
    node. *)
Theorem markers_cover_tree_and_obstacles (same_node same_obstacle : nat -> nat -> bool)
  (cfg : RunConfig) (nl : list TreeNode) :
  (forall i, same_node i i = true) -> (forall j, same_obstacle j j = true) ->
  exists ms,
    publish_markers same_node same_obstacle cfg nl = Some ms /\
    length ms = (length nl + length (obstacle_list cfg))%nat /\
    (forall i node, nl !! i = Some node ->
       exists m, ms !! i = Some m /\ marker_type m = SPHERE /\
                 position m = ((val node).1, (val node).2, 0) /\
                 (2 <= marker_id m <= Z.of_nat i + 2)%Z) /\
    (forall j o, obstacle_list cfg !! j = Some o ->
       exists m, ms !! (length nl + j)%nat = Some m /\
                 (Z.of_nat (length nl) + 2 <= marker_id m
                  <= Z.of_nat j + Z.of_nat (length nl) + 2)%Z /\
                 match o with
                 | Circle x y radius =>
                     marker_type m = CYLINDER /\
                     scale m = (radius * 2, radius * 2, 1 / 10) /\
                     position m = (x, y, 0)
                 | Rectangle x y width height _ =>
                     marker_type m = CUBE /\
                     scale m = (width, height, 1 / 10) /\
                     position m = (x, y, 0)
                 end).
Proof.
  intros Hn Ho.
  destruct (publish_markers_slots same_node same_obstacle cfg nl Hn Ho)
    as (ms & Hms & Hlen & Hnodes & Hobs).
  exists ms. split; [exact Hms|]. split; [exact Hlen|]. split.
  - intros i node Hi. destruct (Hnodes i node Hi) as (m & Hm & Hf).
    destruct (node_marker_found same_node nl i node (Hn i) Hi)
      as (k & Hk & _ & _ & Hmk).
    rewrite Hf in Hmk. injection Hmk as ->.
    exists (mkMarker "map" "rrt_markers" (Z.of_nat k + 2) SPHERE ADD
              (1 / 10, 1 / 10, 1 / 10) (0, 1, 0, 1)
              ((val node).1, (val node).2, 0)).
    repeat split; auto; simpl; lia.
  - intros j o Hj. destruct (Hobs j o Hj) as (m & Hm & Hf).
    destruct (obstacle_marker_found same_obstacle cfg nl j o (Ho j) Hj)
      as (k & Hk & _ & _ & Hmk).
    rewrite Hf in Hmk. injection Hmk as ->.
    eexists. split; [exact Hm|]. destruct o; simpl; repeat split; lia.
Qed.

Lemma markers_cover_tree_and_obstacles_witness :
  exists ms,
    publish_markers Nat.eqb Nat.eqb corridor corridor_3 = Some ms /\
    length ms = (length corridor_3 + length (obstacle_list corridor))%nat /\
    (forall i node, corridor_3 !! i = Some node ->
       exists m, ms !! i = Some m /\ marker_type m = SPHERE /\
                 position m = ((val node).1, (val node).2, 0) /\
                 (2 <= marker_id m <= Z.of_nat i + 2)%Z) /\
    (forall j o, obstacle_list corridor !! j = Some o ->
       exists m, ms !! (length corridor_3 + j)%nat = Some m /\
                 (Z.of_nat (length corridor_3) + 2 <= marker_id m
                  <= Z.of_nat j + Z.of_nat (length corridor_3) + 2)%Z /\
                 match o with
                 | Circle x y radius =>
                     marker_type m = CYLINDER /\
                     scale m = (radius * 2, radius * 2, 1 / 10) /\
                     position m = (x, y, 0)
                 | Rectangle x y width height _ =>
                     marker_type m = CUBE /\
                     scale m = (width, height, 1 / 10) /\
                     position m = (x, y, 0)
                 end).
Proof.
  apply (markers_cover_tree_and_obstacles Nat.eqb Nat.eqb corridor corridor_3);
    intros i; apply Nat.eqb_refl.
Defined.

(** X18. When the objects of each list are pairwise different (as for
    classes that do not define [__eq__]), the markers carry the ids 2, 3,
    4, ... in the order of the array: all ids are different. *)
Theorem marker_ids_count_up (same_node same_obstacle : nat -> nat -> bool)
  (cfg : RunConfig) (nl : list TreeNode) :
  (forall j i, same_node j i = true <-> j = i) ->
  (forall j i, same_obstacle j i = true <-> j = i) ->
  exists ms,
    publish_markers same_node same_obstacle cfg nl = Some ms /\
    forall k m, ms !! k = Some m -> marker_id m = (Z.of_nat k + 2)%Z.
Proof.
  intros Hn Ho.
  assert (forall i, same_node i i = true) as Hnr by (intros i; now apply Hn).
  assert (forall j, same_obstacle j j = true) as Hor by (intros j; now apply Ho).
  destruct (publish_markers_slots same_node same_obstacle cfg nl Hnr Hor)
    as (ms & Hms & Hlen & Hnodes & Hobs).
  exists ms. split; [exact Hms|]. intros k m Hk.
  pose proof (lookup_lt_Some _ _ _ Hk) as Hlt.
  destruct (decide (k < length nl)%nat) as [Hin|Hout].
  - destruct (lookup_lt_is_Some_2 nl k Hin) as [node Hnode].
    destruct (Hnodes k node Hnode) as (m' & Hm' & Hf).
    rewrite Hk in Hm'. injection Hm' as <-.
    destruct (node_marker_found same_node nl k node (Hnr k) Hnode)
      as (k' & _ & Hsame & _ & Hmk).
    apply Hn in Hsame as ->. rewrite Hf in Hmk. now injection Hmk as ->.
  - destruct (lookup_lt_is_Some_2 (obstacle_list cfg) (k - length nl))
      as [o Hobst]; [lia|].
    destruct (Hobs _ o Hobst) as (m' & Hm' & Hf).
    replace (length nl + (k - length nl))%nat with k in Hm' by lia.
    rewrite Hk in Hm'. injection Hm' as <-.
    destruct (obstacle_marker_found same_obstacle cfg nl _ o (Hor _) Hobst)
      as (k' & _ & Hsame & _ & Hmk).
    apply Ho in Hsame as ->. rewrite Hf in Hmk. injection Hmk as ->.
    destruct o; simpl; lia.
Qed.

Lemma marker_ids_count_up_witness :
  exists ms,
    publish_markers Nat.eqb Nat.eqb corridor corridor_3 = Some ms /\
    forall k m, ms !! k = Some m -> marker_id m = (Z.of_nat k + 2)%Z.
Proof.
  apply (marker_ids_count_up Nat.eqb Nat.eqb corridor corridor_3);
    intros j i; apply Nat.eqb_eq.
Defined.

(** X19. [index] returns the first equal object: two nodes that compare
    equal (and compare alike with every other node) get the same marker id,
    that of the first of them, so their markers are not told apart. *)
Theorem equal_nodes_share_marker_id (same_node same_obstacle : nat -> nat -> bool)
  (cfg : RunConfig) (nl : list TreeNode) (j i : nat) :
  (forall k, same_node k k = true) -> (forall k, same_obstacle k k = true) ->
  (j < i)%nat -> (i < length nl)%nat ->
  same_node j i = true -> (forall k, same_node k j = same_node k i) ->
  exists ms mj mi,
    publish_markers same_node same_obstacle cfg nl = Some ms /\
    ms !! j = Some mj /\ ms !! i = Some mi /\
    marker_id mj = marker_id mi /\ (marker_id mi < Z.of_nat i + 2)%Z.
Proof.
  intros Hn Ho Hji Hi Hsame Halike.
  destruct (publish_markers_slots same_node same_obstacle cfg nl Hn Ho)
    as (ms & Hms & _ & Hnodes & _).
  destruct (lookup_lt_is_Some_2 nl j ltac:(lia)) as [nj Hnj].
  destruct (lookup_lt_is_Some_2 nl i Hi) as [ni Hni].
  destruct (Hnodes j nj Hnj) as (mj & Hmj & Hfj).
  destruct (Hnodes i ni Hni) as (mi & Hmi & Hfi).
  destruct (node_marker_found same_node nl j nj (Hn j) Hnj)
    as (kj & Hkj & Hsj & Hbj & Hej).
  destruct (node_marker_found same_node nl i ni (Hn i) Hni)
    as (ki & Hki & Hsi & Hbi & Hei).
  rewrite Hfj in Hej. injection Hej as ->.
  rewrite Hfi in Hei. injection Hei as ->.
  assert (kj = ki) as ->.
  { destruct (Nat.lt_trichotomy kj ki) as [Hlt|[Heq|Hgt]]; [|easy|].
    - specialize (Hbi kj Hlt). rewrite <- Halike in Hbi. congruence.
    - specialize (Hbj ki Hgt). rewrite Halike in Hbj. congruence. }
  exists ms. eexists _, _. split; [exact Hms|]. split; [exact Hmj|].
  split; [exact Hmi|]. simpl. split; [reflexivity|]. lia.
Qed.

Lemma equal_nodes_share_marker_id_witness :
  exists ms mj mi,
    publish_markers (fun _ _ => true) Nat.eqb corridor corridor_1 = Some ms /\
    ms !! 0%nat = Some mj /\ ms !! 1%nat = Some mi /\
    marker_id mj = marker_id mi /\ (marker_id mi < Z.of_nat 1 + 2)%Z.
Proof.
  apply (equal_nodes_share_marker_id (fun _ _ => true) Nat.eqb corridor
           corridor_1 0 1); try reflexivity; try (simpl; lia).
  intros k. apply Nat.eqb_refl.
Defined.

(** X20. [create_marker] reads three numbers of scale, four of colour and
    three of position: it fails exactly when one of the lists is shorter,
    and anything beyond those numbers is ignored. *)
Theorem create_marker_reads_prefixes (type : MarkerType) (id : Z)
  (color_list scale_list position_list : list R) :
  (is_Some (create_marker type id color_list scale_list position_list) <->
   (4 <= length color_list)%nat /\ (3 <= length scale_list)%nat /\
   (3 <= length position_list)%nat) /\
  create_marker type id color_list scale_list position_list
  = create_marker type id (take 4 color_list) (take 3 scale_list)
      (take 3 position_list).
Proof.
  split.
  - destruct scale_list as [|sx [|sy [|sz ?]]];
      destruct color_list as [|r [|g [|b [|a ?]]]];
      destruct position_list as [|px [|py [|pz ?]]];
      simpl; split;
      try (intros [m Hm]; discriminate);
      try (intros (? & ? & ?); lia);
      try (intros _; now eexists);
      try (intros _; repeat split; lia).
  - destruct scale_list as [|sx [|sy [|sz ?]]];
      destruct color_list as [|r [|g [|b [|a ?]]]];
      destruct position_list as [|px [|py [|pz ?]]]; reflexivity.
Qed.

(** * Planning and publishing together *)

(** X21. The call as a whole: a run that gives up logs that no path was
    found and publishes nothing; a run that completes publishes its
    markers, its path and its plot, and none of the three steps raises.
    The published path then has one pose per red line of the plot. *)
Theorem publishes_iff_completed (same_node same_obstacle : nat -> nat -> bool)
  (cfg : RunConfig) (animate : bool) (samples : list (Z * Z)) :
  (forall i, same_node i i = true) -> (forall j, same_obstacle j j = true) ->
  match run_rrt_2D cfg samples with
  | Finished true nl =>
      exists markers path drawing,
        run_and_publish same_node same_obstacle cfg animate samples
        = Presented markers path drawing /\
        publish_markers same_node same_obstacle cfg nl = Some markers /\
        publish_path nl = Some path /\
        plot_rrt_2D cfg animate nl = Some drawing /\
        length path = length (lines "r" drawing)
  | Finished false _ =>
      run_and_publish same_node same_obstacle cfg animate samples = PathNotFound
  | Pending _ =>
      run_and_publish same_node same_obstacle cfg animate samples = StillLooping
  | Crashed => False
  end.
Proof.
  intros Hn Ho. pose proof (run_grown cfg samples) as Hg.
  unfold run_and_publish.
  destruct (run_rrt_2D cfg samples) as [[|] nl|nl|]; [|reflexivity|reflexivity|easy].
  destruct (publish_markers_slots same_node same_obstacle cfg nl Hn Ho)
    as (ms & Hms & _).
  destruct (plot_completed cfg animate nl Hg)
    as (calls & poses & Hplot & Hpath & _ & Hred & _).
  assert (publish_path nl = Some (map snd poses)) as Hpub
    by (unfold publish_path; now rewrite Hpath).
  rewrite Hms, Hpub, Hplot. exists ms, (map snd poses), calls.
  repeat split; auto.
  rewrite <- Hred. now rewrite !length_map.
Qed.

Lemma publishes_iff_completed_witness :
  exists markers path drawing,
    run_and_publish Nat.eqb Nat.eqb corridor true [(5, 0); (5, 0); (5, 0)]%Z
    = Presented markers path drawing /\
    publish_markers Nat.eqb Nat.eqb corridor corridor_3 = Some markers /\
    publish_path corridor_3 = Some path /\
    plot_rrt_2D corridor true corridor_3 = Some drawing /\
    length path = length (lines "r" drawing).
Proof.
  pose proof (publishes_iff_completed Nat.eqb Nat.eqb corridor true
                [(5, 0); (5, 0); (5, 0)]%Z Nat.eqb_refl Nat.eqb_refl) as H.
  rewrite corridor_run in H. exact H.
Defined.
